(** * Versioned text buffer: [text_history.py]

    A shallow embedding of the [TextHistory] class and of the three
    [Action] subclasses, followed by the properties of the action log,
    of replay and of the compaction pass run by [get_actions].

    Conventions of the embedding:
    - Python [int] is [Z] (unbounded), Python [str] is [list ascii];
    - slicing [s[:i]] and [s[i:]] follows Python's index adjustment
      (a negative index counts from the end, and indices are clamped);
    - an exception is a value of [exn]; pure fallible code lives in
      [result], methods of [TextHistory] in the state-and-exception
      monad [M], where a raised exception leaves the object in the state
      reached by the statements executed before it. *)

From Stdlib Require Import ZArith List String Ascii Bool Lia.
From Stdlib Require Import DecimalString.
Import ListNotations.

Local Open Scope Z_scope.
Local Open Scope list_scope.

(** ** Strings and slices *)

Definition str : Type := list ascii.

(** String literals of the source, as [str]. *)
Definition lit (s : string) : str := list_ascii_of_string s.

Definition len {A : Type} (s : list A) : Z := Z.of_nat (List.length s).

(** Index adjustment of a slice bound against a sequence of length [n]. *)
Definition adjust_index (i n : Z) : Z :=
  if i <? 0 then Z.max (i + n) 0 else Z.min i n.

(** [s[:i]] *)
Definition slice_to {A : Type} (s : list A) (i : Z) : list A :=
  firstn (Z.to_nat (adjust_index i (len s))) s.

(** [s[i:]] *)
Definition slice_from {A : Type} (s : list A) (i : Z) : list A :=
  skipn (Z.to_nat (adjust_index i (len s))) s.

(** ["{}".format(i)] for an [int]. *)
Definition format_int (i : Z) : str := lit (NilZero.string_of_int (Z.to_int i)).

(** ** Exceptions and the two monads *)

Inductive exn : Type :=
| ValueError (msg : string)
| IndexError
| AttributeError.

Inductive result (A : Type) : Type :=
| Ok (a : A)
| Raise (e : exn).

Arguments Ok {A} a.
Arguments Raise {A} e.

Definition rbind {A B : Type} (r : result A) (k : A -> result B) : result B :=
  match r with
  | Ok a => k a
  | Raise e => Raise e
  end.

Declare Scope result_scope.
Delimit Scope result_scope with result.
Notation "x <- c ;; k" := (rbind c (fun x => k))
  (at level 61, c at next level, right associativity) : result_scope.

(** The error kinds of the specification.  The source raises
    [ValueError] throughout and tells the kinds apart by message only;
    a stale version and a bad range share one message. *)
Definition VersionMismatch : exn := ValueError "incopatible versions.".
Definition InvalidRange : exn := ValueError "incopatible versions.".

Definition InvalidPosition (e : exn) : Prop :=
  e = ValueError "incorrect pos in InsertAction."
  \/ e = ValueError "incorrect pos in ReplaceAction"
  \/ e = ValueError "incorrect pos in DeleteAction.".

(** ** Actions *)

Inductive Action : Type :=
| InsertAction (pos : Z) (text : str) (from_version to_version : Z)
| ReplaceAction (pos : Z) (text : str) (from_version to_version : Z)
| DeleteAction (pos : Z) (length : Z) (from_version to_version : Z).

Definition pos (a : Action) : Z :=
  match a with
  | InsertAction p _ _ _ | ReplaceAction p _ _ _ | DeleteAction p _ _ _ => p
  end.

Definition from_version (a : Action) : Z :=
  match a with
  | InsertAction _ _ v _ | ReplaceAction _ _ v _ | DeleteAction _ _ v _ => v
  end.

Definition to_version (a : Action) : Z :=
  match a with
  | InsertAction _ _ _ v | ReplaceAction _ _ _ v | DeleteAction _ _ _ v => v
  end.

(** Attribute [text]: present on inserts and replaces only. *)
Definition attr_text (a : Action) : result str :=
  match a with
  | InsertAction _ t _ _ | ReplaceAction _ t _ _ => Ok t
  | DeleteAction _ _ _ _ => Raise AttributeError
  end.

(** Attribute [length]: present on deletes only. *)
Definition attr_length (a : Action) : result Z :=
  match a with
  | DeleteAction _ l _ _ => Ok l
  | _ => Raise AttributeError
  end.

(** [isinstance(a, type(b))]: the three classes are unrelated siblings. *)
Definition isinstance_type (a b : Action) : bool :=
  match a, b with
  | InsertAction _ _ _ _, InsertAction _ _ _ _ => true
  | ReplaceAction _ _ _ _, ReplaceAction _ _ _ _ => true
  | DeleteAction _ _ _ _, DeleteAction _ _ _ _ => true
  | _, _ => false
  end.

(** [Action.apply], one branch per subclass. *)
Definition apply (self : Action) (text : str) : result str :=
  match self with
  | InsertAction pos txt _ _ =>
      if (pos >? len text) || (pos <? 0)
      then Raise (ValueError "incorrect pos in InsertAction.")
      else Ok (slice_to text pos ++ txt ++ slice_from text pos)
  | ReplaceAction pos txt _ _ =>
      if (pos >? len text) || (pos <? 0)
      then Raise (ValueError "incorrect pos in ReplaceAction")
      else
        let end_idx := pos + len txt in
        if end_idx >=? len text
        then Ok (slice_to text pos ++ txt)
        else Ok (slice_to text pos ++ txt ++ slice_from text end_idx)
  | DeleteAction pos length _ _ =>
      if (pos + length >? len text) || (pos <? 0)
      then Raise (ValueError "incorrect pos in DeleteAction.")
      else Ok (slice_to text pos ++ slice_from text (pos + length))
  end.

(** The line continuation inside the format strings keeps the
    indentation of the continued line: one blank after the comma and
    sixteen more from the next source line. *)
Definition continuation_gap : str := repeat " "%char 17.

(** [__str__] *)
Definition to_str (self : Action) : str :=
  match self with
  | InsertAction pos txt fv tv =>
      lit "insert(" ++ txt ++ lit ", pos=" ++ format_int pos ++ lit ","
        ++ continuation_gap
        ++ lit "ver1=" ++ format_int fv ++ lit ", ver2=" ++ format_int tv ++ lit ")"
  | ReplaceAction pos txt fv tv =>
      lit "replace(" ++ txt ++ lit ", pos=" ++ format_int pos ++ lit ","
        ++ continuation_gap
        ++ lit "ver1=" ++ format_int fv ++ lit ", ver2=" ++ format_int tv ++ lit ")"
  | DeleteAction pos length fv tv =>
      lit "delete(pos=" ++ format_int pos ++ lit ", length=" ++ format_int length
        ++ lit "," ++ continuation_gap
        ++ lit "ver1=" ++ format_int fv ++ lit ", ver2=" ++ format_int tv ++ lit ")"
  end.

(** Sequential application of a list of actions to a text. *)
Fixpoint apply_all (acts : list Action) (text : str) : result str :=
  match acts with
  | [] => Ok text
  | a :: rest => (t <- apply a text ;; apply_all rest t)%result
  end.

(** ** The history object *)

Record TextHistory : Type := mkTextHistory {
  _text : str;
  _version : Z;
  __actions_list : list Action
}.

(** [__init__] *)
Definition init : TextHistory :=
  {| _text := []; _version := 0; __actions_list := [] |}.

Definition M (A : Type) : Type := TextHistory -> TextHistory * result A.

Definition ret {A : Type} (a : A) : M A := fun h => (h, Ok a).

Definition raise {A : Type} (e : exn) : M A := fun h => (h, Raise e).

Definition bind {A B : Type} (c : M A) (k : A -> M B) : M B :=
  fun h =>
    match c h with
    | (h', Ok a) => k a h'
    | (h', Raise e) => (h', Raise e)
    end.

Definition lift {A : Type} (r : result A) : M A := fun h => (h, r).

Declare Scope hist_scope.
Delimit Scope hist_scope with hist.
Notation "x <- c ;; k" := (bind c (fun x => k))
  (at level 61, c at next level, right associativity) : hist_scope.
Notation "c ;; k" := (bind c (fun _ => k))
  (at level 61, right associativity) : hist_scope.

Definition get_text : M str := fun h => (h, Ok (_text h)).
Definition get_version : M Z := fun h => (h, Ok (_version h)).
Definition get_actions_list : M (list Action) :=
  fun h => (h, Ok (__actions_list h)).

Definition set_text (t : str) : M unit :=
  fun h => ({| _text := t; _version := _version h;
               __actions_list := __actions_list h |}, Ok tt).
Definition set_version (v : Z) : M unit :=
  fun h => ({| _text := _text h; _version := v;
               __actions_list := __actions_list h |}, Ok tt).
Definition actions_list_append (a : Action) : M unit :=
  fun h => ({| _text := _text h; _version := _version h;
               __actions_list := __actions_list h ++ [a] |}, Ok tt).

(** Properties [text] and [version]. *)
Definition text (h : TextHistory) : str := _text h.
Definition version (h : TextHistory) : Z := _version h.

(** [TextHistory.action] *)
Definition action (act : Action) : M Z :=
  (v <- get_version ;;
   if negb (v =? from_version act)
   then raise (ValueError "incopatible versions.")
   else
     t <- get_text ;;
     t' <- lift (apply act t) ;;
     set_text t' ;;
     set_version (to_version act) ;;
     actions_list_append act ;;
     get_version)%hist.

(** [TextHistory.insert]; [None] is the default argument. *)
Definition insert (txt : str) (pos : option Z) : M Z :=
  (t <- get_text ;;
   let pos := match pos with None => len t | Some p => p end in
   v <- get_version ;;
   let act := InsertAction pos txt v (v + 1) in
   action act ;;
   get_version)%hist.

(** [TextHistory.replace] *)
Definition replace (txt : str) (pos : option Z) : M Z :=
  (t <- get_text ;;
   let pos := match pos with None => len t | Some p => p end in
   v <- get_version ;;
   let act := ReplaceAction pos txt v (v + 1) in
   action act ;;
   get_version)%hist.

(** [TextHistory.delete] *)
Definition delete (pos length : Z) : M Z :=
  (v <- get_version ;;
   let act := DeleteAction pos length v (v + 1) in
   action act ;;
   get_version)%hist.

(** ** Compaction *)

(** [l[-1]] *)
Definition list_last {A : Type} (l : list A) : result A :=
  match rev l with
  | [] => Raise IndexError
  | x :: _ => Ok x
  end.

(** [l.pop()], the list that remains. *)
Definition list_pop {A : Type} (l : list A) : list A := removelast l.

(** [TextHistory.try_merge_delete]; the result is the output list after
    the call. *)
Definition try_merge_delete (act : Action) (optimize_act_list : list Action)
  : result (list Action) :=
  (pre_action <- list_last optimize_act_list ;;
   if pos pre_action =? pos act
   then
     l1 <- attr_length pre_action ;;
     l2 <- attr_length act ;;
     let act' := DeleteAction (pos act) (l1 + l2)
                   (from_version pre_action) (to_version act) in
     Ok (list_pop optimize_act_list ++ [act'])
   else Ok (optimize_act_list ++ [act]))%result.

(** [TextHistory.try_merge_insert] *)
Definition try_merge_insert (act : Action) (optimize_act_list : list Action)
  : result (list Action) :=
  (pre_action <- list_last optimize_act_list ;;
   t1 <- attr_text pre_action ;;
   if pos act =? pos pre_action + len t1
   then
     t2 <- attr_text act ;;
     let act' := InsertAction (pos pre_action) (t1 ++ t2)
                   (from_version pre_action) (to_version act) in
     Ok (list_pop optimize_act_list ++ [act'])
   else Ok (optimize_act_list ++ [act]))%result.

(** Body of the loop of [optimize]. *)
Definition optimize_step (optimize_act_list : list Action) (act : Action)
  : result (list Action) :=
  match optimize_act_list with
  | _ :: _ =>
      (pre <- list_last optimize_act_list ;;
       if isinstance_type pre act
       then
         match act with
         | InsertAction _ _ _ _ => try_merge_insert act optimize_act_list
         | DeleteAction _ _ _ _ => try_merge_delete act optimize_act_list
         | ReplaceAction _ _ _ _ => Ok (optimize_act_list ++ [act])
         end
       else Ok (optimize_act_list ++ [act]))%result
  | [] => Ok (optimize_act_list ++ [act])
  end.

Fixpoint optimize_loop (act_list : list Action) (optimize_act_list : list Action)
  : result (list Action) :=
  match act_list with
  | [] => Ok optimize_act_list
  | act :: rest =>
      (out <- optimize_step optimize_act_list act ;; optimize_loop rest out)%result
  end.

(** [TextHistory.optimize] *)
Definition optimize (act_list : list Action) : result (list Action) :=
  optimize_loop act_list [].

(** The selection loop of [get_actions]. *)
Fixpoint select_loop (from_v to_v : Z) (log act_list : list Action)
  : list Action :=
  match log with
  | [] => act_list
  | act :: rest =>
      if (from_v <=? from_version act) && (from_version act <? to_v)
      then select_loop from_v to_v rest (act_list ++ [act])
      else select_loop from_v to_v rest act_list
  end.

(** [TextHistory.get_actions]; [None] is the default argument. *)
Definition get_actions (from_v to_v : option Z) : M (list Action) :=
  (v <- get_version ;;
   let from_v := match from_v with None => 0 | Some f => f end in
   let to_v := match to_v with None => v | Some t => t end in
   if (from_v >? v) || (to_v >? v)
   then raise (ValueError "incopatible versions.")
   else if from_v >? to_v
   then raise (ValueError "incopatible versions.")
   else if (from_v <? 0) || (to_v <? 0)
   then raise (ValueError "incopatible versions.")
   else
     log <- get_actions_list ;;
     let act_list := select_loop from_v to_v log [] in
     lift (optimize act_list))%hist.

(** ** Sequences of mutation calls *)

Inductive Mutation : Type :=
| CallInsert (txt : str) (pos : option Z)
| CallReplace (txt : str) (pos : option Z)
| CallDelete (pos length : Z).

Definition call (m : Mutation) : M Z :=
  match m with
  | CallInsert txt p => insert txt p
  | CallReplace txt p => replace txt p
  | CallDelete p l => delete p l
  end.

Definition succeeded {A : Type} (r : result A) : bool :=
  match r with Ok _ => true | Raise _ => false end.

(** Runs the calls in order on [h]; a call that raises is caught by the
    caller and the run goes on from the state the call left.  Returns the
    final state and the number of calls that succeeded. *)
Fixpoint run (ms : list Mutation) (h : TextHistory) : TextHistory * nat :=
  match ms with
  | [] => (h, O)
  | m :: rest =>
      let (h', r) := call m h in
      let (h'', n) := run rest h' in
      (h'', if succeeded r then S n else n)
  end.

(** The log invariant of the specification. *)
Definition log_indexed (log : list Action) : Prop :=
  forall (i : nat) (a : Action),
    nth_error log i = Some a ->
    from_version a = Z.of_nat i /\ to_version a = Z.of_nat i + 1.

(** Concrete runs used as examples. *)
Definition abc_history : TextHistory :=
  fst (run [CallInsert (lit "a") (Some 0);
            CallInsert (lit "b") (Some 1);
            CallInsert (lit "c") (Some 2)] init).

(** A log whose two deletes are merged although one has a negative
    length: [insert("abc")], [delete(0, -1)], [delete(0, 1)]. *)
Definition negative_delete_calls : list Mutation :=
  [CallInsert (lit "abc") None; CallDelete 0 (-1); CallDelete 0 1].

Definition negative_delete_history : TextHistory :=
  fst (run negative_delete_calls init).

(** Every delete of the list has a non-negative length. *)
Definition delete_length_nonneg (a : Action) : Prop :=
  match a with
  | DeleteAction _ l _ _ => 0 <= l
  | _ => True
  end.

(** What the loop body of [optimize] leaves in place of the last output
    entry [pre] when it meets [act]: used to reason about the pass. *)
Definition merge_pair (pre act : Action) : list Action :=
  match pre, act with
  | InsertAction p1 t1 f1 _, InsertAction p2 t2 _ v2 =>
      if p2 =? p1 + len t1 then [InsertAction p1 (t1 ++ t2) f1 v2] else [pre; act]
  | DeleteAction p1 l1 f1 _, DeleteAction p2 l2 _ v2 =>
      if p1 =? p2 then [DeleteAction p2 (l1 + l2) f1 v2] else [pre; act]
  | _, _ => [pre; act]
  end.

(** The window test of [get_actions]. *)
Definition in_window (from_v to_v : Z) (a : Action) : bool :=
  (from_v <=? from_version a) && (from_version a <? to_v).

(** Replaying the log from the empty string gives the current text. *)
Definition replays (h : TextHistory) : Prop :=
  apply_all (__actions_list h) [] = Ok (_text h).

(** The version counts the log entries, and entry [i] spans [i], [i+1]. *)
Definition well_versioned (h : TextHistory) : Prop :=
  _version h = len (__actions_list h) /\ log_indexed (__actions_list h).

(** Hand-built actions whose [to_version] is not [from_version + 1]. *)
Definition jump_action : Action := InsertAction 0 (lit "x") 0 5.
Definition back_action : Action := DeleteAction 0 0 5 2.

Definition jump_history : TextHistory := fst (action jump_action init).
Definition back_history : TextHistory := fst (action back_action jump_history).
Definition after_jump_history : TextHistory :=
  fst (call (CallInsert (lit "y") None) jump_history).

(** The merge test of the loop body of [optimize]: both actions of one
    kind, and the position test of [try_merge_insert] or
    [try_merge_delete] passes.  A replace is never merged. *)
Definition mergeable (pre act : Action) : bool :=
  match pre, act with
  | InsertAction p1 t1 _ _, InsertAction p2 _ _ _ => p2 =? p1 + len t1
  | DeleteAction p1 _ _ _, DeleteAction p2 _ _ _ => p1 =? p2
  | _, _ => false
  end.

(** A relation that holds between every entry of a list and the next. *)
Fixpoint adjacent (R : Action -> Action -> Prop) (l : list Action) : Prop :=
  match l with
  | a :: (b :: _) as rest => R a b /\ adjacent R rest
  | _ => True
  end.

(** No entry can be merged with the next one. *)
Definition compact (l : list Action) : Prop :=
  adjacent (fun a b => mergeable a b = false) l.

(** Every entry starts at the version where the previous one ends. *)
Definition chained (l : list Action) : Prop :=
  adjacent (fun a b => to_version a = from_version b) l.

(** First and last entry of a list, when there is one. *)
Definition first_entry (l : list Action) : option Action := hd_error l.
Definition last_entry (l : list Action) : option Action := hd_error (rev l).

(** The junction of two lists: the last entry of the first against the
    first entry of the second. *)
Definition junction (R : Action -> Action -> Prop) (x y : list Action) : Prop :=
  forall a b, last_entry x = Some a -> first_entry y = Some b -> R a b.

(** Entry [i] of the list spans the versions [k + i] and [k + i + 1]. *)
Definition indexed_from (k : Z) (l : list Action) : Prop :=
  forall (i : nat) (a : Action),
    nth_error l i = Some a ->
    from_version a = k + Z.of_nat i /\ to_version a = k + Z.of_nat i + 1.

(** Typing at the end of the text: one [insert(c)] without a position
    for each piece of [cs], in order. *)
Definition append_calls (cs : list str) : list Mutation :=
  map (fun c => CallInsert c None) cs.

(** The inserts such calls log, from position [p] and version [v] on. *)
Fixpoint typed_actions (p v : Z) (cs : list str) : list Action :=
  match cs with
  | [] => []
  | c :: rest => InsertAction p c v (v + 1) :: typed_actions (p + len c) (v + 1) rest
  end.

(** The text a history had at version [k]: the replay of the first [k]
    log entries. *)
Definition text_at (h : TextHistory) (k : Z) : result str :=
  apply_all (firstn (Z.to_nat k) (__actions_list h)) [].

(** ** Worked examples *)

Example abc_history_text : text abc_history = lit "abc" /\ version abc_history = 3.
Proof. split; reflexivity. Qed.

Example abc_get_actions :
  snd (get_actions None None abc_history) = Ok [InsertAction 0 (lit "abc") 0 3].
Proof. reflexivity. Qed.

Example replace_hello_trunc :
  apply (ReplaceAction 4 (lit "XY") 0 1) (lit "hello") = Ok (lit "hellXY").
Proof. reflexivity. Qed.

Example replace_hello_splice :
  apply (ReplaceAction 2 (lit "Z") 0 1) (lit "hello") = Ok (lit "heZlo").
Proof. reflexivity. Qed.

Example to_str_insert :
  to_str (InsertAction 0 (lit "abc") 0 1)
  = lit "insert(abc, pos=0,                 ver1=0, ver2=1)".
Proof. reflexivity. Qed.

Example to_str_delete :
  to_str (DeleteAction 3 (-1) 10 11)
  = lit "delete(pos=3, length=-1,                 ver1=10, ver2=11)".
Proof. reflexivity. Qed.

Example delete_negative_length :
  apply (DeleteAction 0 (-1) 1 2) (lit "abc") = Ok (lit "c").
Proof. reflexivity. Qed.

Example delete_bounds :
  apply (DeleteAction 3 10 0 1) (lit "hello")
  = Raise (ValueError "incorrect pos in DeleteAction.").
Proof. reflexivity. Qed.

Example negative_delete_history_state :
  text negative_delete_history = [] /\ version negative_delete_history = 3
  /\ snd (get_actions (Some 1) (Some 3) negative_delete_history)
     = Ok [DeleteAction 0 0 1 3].
Proof. repeat split. Qed.

(** ** Slices and lists *)

Lemma len_app {A : Type} (l1 l2 : list A) : len (l1 ++ l2) = len l1 + len l2.
Proof. unfold len. rewrite length_app. lia. Qed.

Lemma len_nonneg {A : Type} (l : list A) : 0 <= len l.
Proof. unfold len. lia. Qed.

Lemma adjust_index_in_range (i n : Z) : 0 <= i <= n -> adjust_index i n = i.
Proof.
  intros H. unfold adjust_index.
  destruct (Z.ltb_spec i 0); lia.
Qed.

Lemma slice_to_firstn {A : Type} (s : list A) (i : Z) :
  0 <= i <= len s -> slice_to s i = firstn (Z.to_nat i) s.
Proof. intros H. unfold slice_to. now rewrite adjust_index_in_range. Qed.

Lemma slice_from_skipn {A : Type} (s : list A) (i : Z) :
  0 <= i <= len s -> slice_from s i = skipn (Z.to_nat i) s.
Proof. intros H. unfold slice_from. now rewrite adjust_index_in_range. Qed.

Lemma list_last_snoc {A : Type} (l : list A) (x : A) : list_last (l ++ [x]) = Ok x.
Proof. unfold list_last. now rewrite rev_app_distr. Qed.

Lemma list_pop_snoc {A : Type} (l : list A) (x : A) : list_pop (l ++ [x]) = l.
Proof. unfold list_pop. apply removelast_last. Qed.

Lemma list_empty_or_snoc {A : Type} (l : list A) :
  l = [] \/ exists l' x, l = l' ++ [x].
Proof.
  destruct l as [|y l] using rev_ind; [now left | right; eauto].
Qed.

Lemma apply_all_app (l1 l2 : list Action) (t : str) :
  apply_all (l1 ++ l2) t = rbind (apply_all l1 t) (apply_all l2).
Proof.
  revert t. induction l1 as [|a l1 IH]; intros t; simpl; [reflexivity|].
  destruct (apply a t); simpl; [apply IH | reflexivity].
Qed.

(** ** The primitive [action] *)

Section ActionPrimitive.

Variable act : Action.
Variable h : TextHistory.

Lemma action_stale :
  from_version act <> _version h ->
  action act h = (h, Raise (ValueError "incopatible versions.")).
Proof.
  intros Hne. unfold action, bind, get_version, raise.
  destruct (Z.eqb_spec (_version h) (from_version act)) as [E|E]; simpl.
  - congruence.
  - reflexivity.
Qed.

Lemma action_apply_raises (e : exn) :
  from_version act = _version h ->
  apply act (_text h) = Raise e ->
  action act h = (h, Raise e).
Proof.
  intros Hv Ha. unfold action, bind, get_version, get_text, lift.
  rewrite Hv, Z.eqb_refl. simpl. now rewrite Ha.
Qed.

Lemma action_commits (t' : str) :
  from_version act = _version h ->
  apply act (_text h) = Ok t' ->
  action act h
  = ({| _text := t'; _version := to_version act;
        __actions_list := __actions_list h ++ [act] |},
     Ok (to_version act)).
Proof.
  intros Hv Ha. unfold action, bind, get_version, get_text, lift.
  rewrite Hv, Z.eqb_refl. simpl. now rewrite Ha.
Qed.

(** The two outcomes of [action]: nothing changed and an exception, or
    all three fields committed. *)
Lemma action_cases :
  (exists e, action act h = (h, Raise e))
  \/ (exists t',
        from_version act = _version h
        /\ apply act (_text h) = Ok t'
        /\ action act h
           = ({| _text := t'; _version := to_version act;
                 __actions_list := __actions_list h ++ [act] |},
              Ok (to_version act))).
Proof.
  destruct (Z.eq_dec (from_version act) (_version h)) as [Hv|Hv].
  - destruct (apply act (_text h)) as [t'|e] eqn:Ha.
    + right. exists t'. auto using action_commits.
    + left. exists e. now apply action_apply_raises.
  - left. eexists. now apply action_stale.
Qed.

End ActionPrimitive.

(** A mutation call either raises and changes nothing, or commits one
    action that spans the current version and the next. *)
Lemma call_cases (m : Mutation) (h : TextHistory) :
  (exists e, call m h = (h, Raise e))
  \/ (exists a t',
        from_version a = _version h
        /\ to_version a = _version h + 1
        /\ apply a (_text h) = Ok t'
        /\ call m h
           = ({| _text := t'; _version := _version h + 1;
                 __actions_list := __actions_list h ++ [a] |},
              Ok (_version h + 1))).
Proof.
  destruct m as [txt p|txt p|p l]; simpl.
  - set (a := InsertAction (match p with None => len (_text h) | Some q => q end)
                txt (_version h) (_version h + 1)).
    destruct (action_cases a h) as [[e He]|[t' (Hv & Ha & Hc)]].
    + left. exists e. unfold insert, bind, get_text, get_version.
      fold a. now rewrite He.
    + right. exists a, t'. repeat split; trivial.
      unfold insert, bind, get_text, get_version. fold a. now rewrite Hc.
  - set (a := ReplaceAction (match p with None => len (_text h) | Some q => q end)
                txt (_version h) (_version h + 1)).
    destruct (action_cases a h) as [[e He]|[t' (Hv & Ha & Hc)]].
    + left. exists e. unfold replace, bind, get_text, get_version.
      fold a. now rewrite He.
    + right. exists a, t'. repeat split; trivial.
      unfold replace, bind, get_text, get_version. fold a. now rewrite Hc.
  - set (a := DeleteAction p l (_version h) (_version h + 1)).
    destruct (action_cases a h) as [[e He]|[t' (Hv & Ha & Hc)]].
    + left. exists e. unfold delete, bind, get_version.
      fold a. now rewrite He.
    + right. exists a, t'. repeat split; trivial.
      unfold delete, bind, get_version. fold a. now rewrite Hc.
Qed.

(** ** Invariants of the log *)

Lemma replays_call (m : Mutation) (h : TextHistory) :
  replays h -> replays (fst (call m h)).
Proof.
  intros Hr.
  destruct (call_cases m h) as [[e He]|[a [t' (_ & _ & Ha & Hc)]]].
  - now rewrite He.
  - rewrite Hc. unfold replays in *. simpl.
    rewrite apply_all_app, Hr. simpl. now rewrite Ha.
Qed.

Lemma log_indexed_snoc (log : list Action) (a : Action) :
  log_indexed log ->
  from_version a = len log -> to_version a = len log + 1 ->
  log_indexed (log ++ [a]).
Proof.
  intros Hl Hf Ht i b Hnth.
  destruct (Nat.lt_ge_cases i (List.length log)) as [Hlt|Hge].
  - rewrite nth_error_app1 in Hnth by assumption. now apply Hl.
  - rewrite nth_error_app2 in Hnth by assumption.
    destruct (i - List.length log)%nat as [|k] eqn:Hk; simpl in Hnth.
    + injection Hnth as <-. unfold len in *.
      assert (i = List.length log) by lia. subst i. now split.
    + destruct k; discriminate.
Qed.

Lemma well_versioned_call (m : Mutation) (h : TextHistory) :
  well_versioned h ->
  well_versioned (fst (call m h))
  /\ _version (fst (call m h))
     = _version h + (if succeeded (snd (call m h)) then 1 else 0).
Proof.
  intros [Hv Hl].
  destruct (call_cases m h) as [[e He]|[a [t' (Hf & Ht & _ & Hc)]]].
  - rewrite He. simpl. split; [now split | lia].
  - rewrite Hc. simpl. split; [|reflexivity]. split; simpl.
    + rewrite len_app, <- Hv. reflexivity.
    + apply log_indexed_snoc; trivial; congruence.
Qed.

Lemma run_replays (ms : list Mutation) (h : TextHistory) :
  replays h -> replays (fst (run ms h)).
Proof.
  revert h. induction ms as [|m ms IH]; intros h Hr; simpl; [assumption|].
  pose proof (replays_call m h Hr) as Hc.
  destruct (call m h) as [h' r]. simpl in Hc.
  specialize (IH h' Hc). destruct (run ms h') as [h'' n]. exact IH.
Qed.

Lemma run_well_versioned (ms : list Mutation) (h : TextHistory) :
  well_versioned h ->
  well_versioned (fst (run ms h))
  /\ _version (fst (run ms h)) = _version h + Z.of_nat (snd (run ms h)).
Proof.
  revert h. induction ms as [|m ms IH]; intros h Hw; simpl.
  - split; [assumption | lia].
  - destruct (well_versioned_call m h Hw) as [Hc Hv].
    destruct (call m h) as [h' r]. simpl in Hc, Hv.
    destruct (IH h' Hc) as [IH1 IH2].
    destruct (run ms h') as [h'' n]. simpl in *.
    split; [assumption|]. rewrite IH2, Hv.
    destruct (succeeded r); lia.
Qed.

(** ** Replay and versions *)

(** C1. Replay determinism: after any sequence of mutation calls on a
    fresh history (calls that raise are caught and change nothing),
    applying the log entries in order, starting from the empty string,
    gives exactly the current text. *)
Theorem replay_determinism (ms : list Mutation) (h : TextHistory) (n : nat) :
  run ms init = (h, n) ->
  apply_all (__actions_list h) [] = Ok (text h).
Proof.
  intros Hrun.
  assert (Hi : replays init) by reflexivity.
  pose proof (run_replays ms init Hi) as Hr.
  rewrite Hrun in Hr. exact Hr.
Qed.

Lemma replay_determinism_witness :
  apply_all (__actions_list negative_delete_history) []
  = Ok (text negative_delete_history).
Proof.
  apply (replay_determinism negative_delete_calls negative_delete_history 3).
  reflexivity.
Defined.

(** C8. Log and version invariant: after a sequence of mutation calls on
    a fresh history of which [n] succeeded, the version is [n], the log
    has [n] entries, and entry [i] has [from_version = i] and
    [to_version = i + 1]. *)
Theorem log_version_invariant (ms : list Mutation) (h : TextHistory) (n : nat) :
  run ms init = (h, n) ->
  version h = Z.of_nat n
  /\ List.length (__actions_list h) = n
  /\ (forall (i : nat) (a : Action),
        nth_error (__actions_list h) i = Some a ->
        from_version a = Z.of_nat i /\ to_version a = Z.of_nat i + 1).
Proof.
  intros Hrun.
  assert (Hi : well_versioned init).
  { split; [reflexivity|]. intros [|i] a Hn; discriminate. }
  destruct (run_well_versioned ms init Hi) as [[Hv Hl] Hn].
  rewrite Hrun in Hv, Hl, Hn. simpl in Hv, Hl, Hn.
  unfold version. unfold len in Hv.
  repeat split; try apply (Hl i a); trivial; lia.
Qed.

Lemma log_version_invariant_witness :
  version abc_history = 3
  /\ List.length (__actions_list abc_history) = 3%nat
  /\ (forall (i : nat) (a : Action),
        nth_error (__actions_list abc_history) i = Some a ->
        from_version a = Z.of_nat i /\ to_version a = Z.of_nat i + 1).
Proof.
  apply (log_version_invariant
           [CallInsert (lit "a") (Some 0); CallInsert (lit "b") (Some 1);
            CallInsert (lit "c") (Some 2)] abc_history 3).
  reflexivity.
Defined.

(** ** Error behaviour of [action] *)

(** C3. [action] raises the version-mismatch error when the action's
    [from_version] differs from the current version, passes on unchanged
    any exception raised by the action's [apply], leaves text, version
    and log as they were whenever it raises, and on success commits
    [apply]'s result as the text, [to_version] as the version, and the
    action at the end of the log. *)
Theorem action_atomic (act : Action) (h : TextHistory) :
  (from_version act <> version h ->
     action act h = (h, Raise VersionMismatch))
  /\ (forall e, from_version act = version h ->
        apply act (text h) = Raise e ->
        action act h = (h, Raise e))
  /\ (forall h' e, action act h = (h', Raise e) -> h' = h)
  /\ (forall t', from_version act = version h ->
        apply act (text h) = Ok t' ->
        action act h
        = ({| _text := t'; _version := to_version act;
              __actions_list := __actions_list h ++ [act] |},
           Ok (to_version act))).
Proof.
  split; [|split; [|split]].
  - apply action_stale.
  - intros e. apply action_apply_raises.
  - intros h' e Hr.
    destruct (action_cases act h) as [[e' He]|[t' (_ & _ & Hc)]];
      congruence.
  - intros t'. apply action_commits.
Qed.

Lemma action_atomic_witness :
  action (InsertAction 0 (lit "x") 7 8) abc_history
  = (abc_history, Raise VersionMismatch)
  /\ action (DeleteAction 3 10 3 4) abc_history
     = (abc_history, Raise (ValueError "incorrect pos in DeleteAction."))
  /\ action (DeleteAction 0 1 3 4) abc_history
     = ({| _text := lit "bc"; _version := 4;
           __actions_list := __actions_list abc_history
                             ++ [DeleteAction 0 1 3 4] |}, Ok 4).
Proof.
  split; [|split].
  - apply (proj1 (action_atomic (InsertAction 0 (lit "x") 7 8) abc_history)).
    vm_compute. discriminate.
  - apply (proj1 (proj2 (action_atomic (DeleteAction 3 10 3 4) abc_history)));
      reflexivity.
  - apply (proj2 (proj2 (proj2
             (action_atomic (DeleteAction 0 1 3 4) abc_history))));
      reflexivity.
Defined.

(** C10. [action] never looks at [to_version]: whenever the action's
    [from_version] is the current version and its [apply] succeeds, the
    call succeeds and the version becomes [to_version] whatever it is.
    A hand-built action can therefore make the version jump (0 to 5) or
    go back (5 to 2), and after a jump the next [insert] succeeds and
    leaves a log whose second entry does not span versions 1 and 2. *)
Theorem action_ignores_to_version :
  (forall (act : Action) (h : TextHistory) (t' : str),
      from_version act = version h ->
      apply act (text h) = Ok t' ->
      snd (action act h) = Ok (to_version act)
      /\ version (fst (action act h)) = to_version act
      /\ text (fst (action act h)) = t'
      /\ __actions_list (fst (action act h)) = __actions_list h ++ [act])
  /\ (version init = 0 /\ version jump_history = 5)
  /\ (version back_history = 2)
  /\ (snd (call (CallInsert (lit "y") None) jump_history) = Ok 6
      /\ ~ log_indexed (__actions_list after_jump_history)
      /\ len (__actions_list after_jump_history) <> version after_jump_history).
Proof.
  split; [|split; [|split]].
  - intros act h t' Hv Ha.
    rewrite (action_commits act h t' Hv Ha). simpl. auto.
  - split; reflexivity.
  - reflexivity.
  - split; [reflexivity|]. split.
    + intros Hl. destruct (Hl 1%nat _ eq_refl) as [Hf _]. discriminate Hf.
    + vm_compute. discriminate.
Qed.

Lemma action_ignores_to_version_witness :
  snd (action jump_action init) = Ok 5
  /\ version (fst (action jump_action init)) = 5
  /\ text (fst (action jump_action init)) = lit "x"
  /\ __actions_list (fst (action jump_action init)) = [jump_action].
Proof.
  apply (proj1 action_ignores_to_version jump_action init (lit "x"));
    reflexivity.
Defined.

(** ** Replace *)

(** C2. [ReplaceAction.apply]: with [0 <= position <= length t], the
    result is [t[:position] + content] when
    [position + length content >= length t] (the exact fit included) and
    [t[:position] + content + t[position + length content:]] otherwise;
    it raises, with the invalid-position error, exactly when
    [position < 0] or [position > length t]. *)
Theorem replace_apply_semantics (t content : str) (p fv tv : Z) :
  (0 <= p <= len t ->
     (p + len content >= len t ->
        apply (ReplaceAction p content fv tv) t
        = Ok (firstn (Z.to_nat p) t ++ content))
     /\ (p + len content < len t ->
        apply (ReplaceAction p content fv tv) t
        = Ok (firstn (Z.to_nat p) t ++ content
                ++ skipn (Z.to_nat (p + len content)) t)))
  /\ (p < 0 \/ p > len t ->
        exists e, apply (ReplaceAction p content fv tv) t = Raise e
                  /\ InvalidPosition e)
  /\ (forall e, apply (ReplaceAction p content fv tv) t = Raise e ->
        InvalidPosition e /\ (p < 0 \/ p > len t)).
Proof.
  pose proof (len_nonneg content) as Hc.
  unfold apply.
  destruct (Z.gtb_spec p (len t)) as [Hgt|Hle];
    destruct (Z.ltb_spec p 0) as [Hneg|Hpos]; simpl;
    try (split; [intros; lia | split; [intros _ | intros e He]];
         [ eexists; split; [reflexivity | right; now left]
         | injection He as <-; split; [right; now left | lia] ]).
  split; [|split].
  - intros Hp. split; intros Hend.
    + destruct (Z.geb_spec (p + len content) (len t)); [|lia].
      now rewrite slice_to_firstn.
    + destruct (Z.geb_spec (p + len content) (len t)); [lia|].
      rewrite slice_to_firstn by lia. now rewrite slice_from_skipn by lia.
  - intros; lia.
  - intros e He. destruct (p + len content >=? len t); discriminate.
Qed.

Lemma replace_apply_semantics_witness :
  apply (ReplaceAction 3 (lit "XY") 0 1) (lit "hello") = Ok (lit "helXY")
  /\ apply (ReplaceAction 2 (lit "Z") 0 1) (lit "hello") = Ok (lit "heZlo")
  /\ exists e, apply (ReplaceAction 6 (lit "Z") 0 1) (lit "hello") = Raise e
               /\ InvalidPosition e.
Proof.
  split; [|split].
  - apply (proj1 (proj1 (replace_apply_semantics
                           (lit "hello") (lit "XY") 3 0 1)
                        ltac:(vm_compute; split; discriminate)));
      vm_compute; discriminate.
  - apply (proj2 (proj1 (replace_apply_semantics
                           (lit "hello") (lit "Z") 2 0 1)
                        ltac:(vm_compute; split; discriminate)));
      reflexivity.
  - apply (proj1 (proj2 (replace_apply_semantics
                           (lit "hello") (lit "Z") 6 0 1))).
    right. reflexivity.
Defined.

(** ** The compaction pass *)

Lemma optimize_step_nil (a : Action) : optimize_step [] a = Ok [a].
Proof. reflexivity. Qed.

Lemma optimize_step_snoc (l : list Action) (pre a : Action) :
  optimize_step (l ++ [pre]) a = Ok (l ++ merge_pair pre a).
Proof.
  unfold optimize_step.
  destruct (l ++ [pre]) as [|x xs] eqn:E.
  { destruct l; discriminate. }
  rewrite <- E. clear E x xs.
  rewrite list_last_snoc. simpl.
  assert (Hsnoc : forall b, (l ++ [pre]) ++ [b] = l ++ [pre; b]).
  { intros b. now rewrite <- app_assoc. }
  destruct pre as [p1 t1 f1 v1|p1 t1 f1 v1|p1 l1 f1 v1];
    destruct a as [p2 t2 f2 v2|p2 t2 f2 v2|p2 l2 f2 v2];
    simpl; try (now rewrite Hsnoc).
  - unfold try_merge_insert. rewrite list_last_snoc. simpl.
    destruct (p2 =? p1 + len t1); simpl.
    + now rewrite list_pop_snoc.
    + now rewrite Hsnoc.
  - unfold try_merge_delete. rewrite list_last_snoc. simpl.
    destruct (p1 =? p2); simpl.
    + now rewrite list_pop_snoc.
    + now rewrite Hsnoc.
Qed.

Lemma optimize_step_total (out : list Action) (a : Action) :
  exists out', optimize_step out a = Ok out'.
Proof.
  destruct (list_empty_or_snoc out) as [->|[l [pre ->]]].
  - eexists. apply optimize_step_nil.
  - eexists. apply optimize_step_snoc.
Qed.

Lemma optimize_loop_total (l out : list Action) :
  exists out', optimize_loop l out = Ok out'.
Proof.
  revert out. induction l as [|a l IH]; intros out; simpl.
  - now exists out.
  - destruct (optimize_step_total out a) as [out1 ->]. simpl. apply IH.
Qed.

(** [optimize] never raises. *)
Lemma optimize_total (l : list Action) : exists out, optimize l = Ok out.
Proof. apply optimize_loop_total. Qed.

(** *** Merged actions against the pair they replace *)

Lemma insert_merge_equiv (p : Z) (c1 c2 : str) (f1 v1 f2 v2 : Z) (t : str) :
  apply (InsertAction p (c1 ++ c2) f1 v2) t
  = rbind (apply (InsertAction p c1 f1 v1) t)
          (apply (InsertAction (p + len c1) c2 f2 v2)).
Proof.
  pose proof (len_nonneg c1) as Hc1.
  unfold apply.
  destruct (Z.gtb_spec p (len t)) as [Hgt|Hle]; simpl; [reflexivity|].
  destruct (Z.ltb_spec p 0) as [Hneg|Hpos]; simpl; [reflexivity|].
  rewrite slice_to_firstn, slice_from_skipn by lia.
  set (n := Z.to_nat p).
  assert (Hn : (n <= List.length t)%nat) by (unfold len in Hle; lia).
  assert (Hlen : len (firstn n t ++ c1 ++ skipn n t) = len t + len c1).
  { rewrite !len_app. unfold len.
    rewrite firstn_length_le, length_skipn by assumption. lia. }
  rewrite Hlen.
  destruct (Z.gtb_spec (p + len c1) (len t + len c1)); [lia|].
  destruct (Z.ltb_spec (p + len c1) 0); [lia|]. simpl.
  rewrite slice_to_firstn, slice_from_skipn by lia.
  assert (Hk : Z.to_nat (p + len c1) = List.length (firstn n t ++ c1)).
  { rewrite length_app, firstn_length_le by assumption.
    unfold len, n. lia. }
  rewrite Hk.
  rewrite (app_assoc (firstn n t) c1 (skipn n t)).
  rewrite firstn_app, firstn_all, Nat.sub_diag, firstn_O, app_nil_r.
  rewrite skipn_app, skipn_all, Nat.sub_diag. simpl.
  now rewrite <- !app_assoc.
Qed.

Lemma delete_merge_equiv (p l1 l2 f1 v1 f2 v2 : Z) (t : str) :
  0 <= l1 -> 0 <= l2 ->
  apply (DeleteAction p (l1 + l2) f1 v2) t
  = rbind (apply (DeleteAction p l1 f1 v1) t)
          (apply (DeleteAction p l2 f2 v2)).
Proof.
  intros H1 H2. unfold apply.
  destruct (Z.ltb_spec p 0) as [Hneg|Hpos].
  { rewrite !orb_true_r. reflexivity. }
  rewrite !orb_false_r.
  destruct (Z.gtb_spec (p + l1) (len t)) as [Hgt|Hle]; simpl.
  { destruct (Z.gtb_spec (p + (l1 + l2)) (len t)); [reflexivity | lia]. }
  rewrite orb_false_r.
  rewrite !(slice_to_firstn t p), (slice_from_skipn t (p + l1)) by lia.
  set (n := Z.to_nat p). set (k := Z.to_nat l1).
  assert (Hnk : Z.to_nat (p + l1) = (n + k)%nat) by (unfold n, k; lia).
  assert (Hle' : (n + k <= List.length t)%nat) by (unfold len in Hle; lia).
  rewrite Hnk.
  assert (Hlen : len (firstn n t ++ skipn (n + k) t) = len t - l1).
  { rewrite len_app. unfold len.
    rewrite firstn_length_le, length_skipn by lia. lia. }
  rewrite Hlen.
  destruct (Z.gtb_spec (p + (l1 + l2)) (len t)) as [Hgt2|Hle2];
    destruct (Z.gtb_spec (p + l2) (len t - l1)); try lia; [reflexivity|].
  rewrite slice_from_skipn by lia.
  rewrite slice_to_firstn, slice_from_skipn by lia.
  fold n.
  assert (Hn : n = List.length (firstn n t)).
  { rewrite firstn_length_le; lia. }
  f_equal.
  rewrite firstn_app, <- Hn, Nat.sub_diag, firstn_O, app_nil_r.
  rewrite firstn_firstn, Nat.min_id. f_equal.
  replace (Z.to_nat (p + l2)) with (n + Z.to_nat l2)%nat by (unfold n; lia).
  rewrite skipn_app.
  rewrite (skipn_all2 (firstn n t)) by (rewrite <- Hn; lia).
  rewrite <- Hn. simpl.
  replace (n + Z.to_nat l2 - n)%nat with (Z.to_nat l2) by lia.
  rewrite skipn_skipn. f_equal. unfold n, k. lia.
Qed.

Lemma rbind_Ok {A : Type} (r : result A) : rbind r Ok = r.
Proof. now destruct r. Qed.

Lemma apply_all_pair (a b : Action) (t : str) :
  apply_all [a; b] t = rbind (apply a t) (apply b).
Proof.
  simpl. destruct (apply a t) as [t1|e]; simpl; [apply rbind_Ok | reflexivity].
Qed.

Lemma merge_pair_equiv (pre a : Action) :
  delete_length_nonneg pre -> delete_length_nonneg a ->
  Forall delete_length_nonneg (merge_pair pre a)
  /\ forall t, apply_all (merge_pair pre a) t = apply_all [pre; a] t.
Proof.
  intros Hpre Ha.
  destruct pre as [p1 t1 f1 v1|p1 t1 f1 v1|p1 l1 f1 v1];
    destruct a as [p2 t2 f2 v2|p2 t2 f2 v2|p2 l2 f2 v2];
    simpl merge_pair; try (split; [repeat constructor; assumption | reflexivity]).
  - destruct (Z.eqb_spec p2 (p1 + len t1)) as [->|_];
      [|split; [repeat constructor; assumption | reflexivity]].
    split; [repeat constructor|]. intros t.
    rewrite apply_all_pair, <- insert_merge_equiv.
    simpl. apply rbind_Ok.
  - simpl in Hpre, Ha.
    destruct (Z.eqb_spec p1 p2) as [->|_];
      [|split; [repeat constructor; assumption | reflexivity]].
    split; [repeat constructor; simpl; lia|]. intros t.
    rewrite apply_all_pair, <- delete_merge_equiv by assumption.
    simpl. apply rbind_Ok.
Qed.

Lemma optimize_step_equiv (out : list Action) (a : Action) :
  Forall delete_length_nonneg out -> delete_length_nonneg a ->
  exists out1,
    optimize_step out a = Ok out1
    /\ Forall delete_length_nonneg out1
    /\ forall t, apply_all out1 t = apply_all (out ++ [a]) t.
Proof.
  intros Hout Ha.
  destruct (list_empty_or_snoc out) as [->|[l [pre ->]]].
  - exists [a]. repeat split; trivial. now constructor.
  - apply Forall_app in Hout. destruct Hout as [Hl Hpre].
    inversion Hpre as [|? ? Hp _]; subst.
    destruct (merge_pair_equiv pre a Hp Ha) as [Hm He].
    exists (l ++ merge_pair pre a). split; [apply optimize_step_snoc|].
    split; [apply Forall_app; now split|].
    intros t. rewrite <- app_assoc, !apply_all_app. simpl app.
    destruct (apply_all l t) as [t1|e]; simpl rbind; [apply He | reflexivity].
Qed.

Lemma optimize_loop_equiv (l out : list Action) :
  Forall delete_length_nonneg out -> Forall delete_length_nonneg l ->
  exists out',
    optimize_loop l out = Ok out'
    /\ forall t, apply_all out' t = apply_all (out ++ l) t.
Proof.
  revert out. induction l as [|a l IH]; intros out Hout Hl; simpl.
  - exists out. now rewrite app_nil_r.
  - inversion Hl as [|? ? Ha Hl']; subst.
    destruct (optimize_step_equiv out a Hout Ha) as [out1 (-> & H1 & E1)].
    destruct (IH out1 H1 Hl') as [out' [Ho E']].
    exists out'. split; [exact Ho|]. intros t.
    rewrite E', apply_all_app, E1, <- apply_all_app, <- app_assoc.
    reflexivity.
Qed.

(** C5, as the code has it.  For a list of actions whose deletes all
    have a non-negative length, the compaction pass returns a list that,
    applied in order to any text, gives the same final text or the same
    exception as the original list. *)
Theorem compaction_equivalence (l : list Action) :
  Forall delete_length_nonneg l ->
  exists out,
    optimize l = Ok out
    /\ forall t : str, apply_all out t = apply_all l t.
Proof.
  intros Hl. apply (optimize_loop_equiv l [] (Forall_nil _) Hl).
Qed.

Lemma compaction_equivalence_witness :
  exists out,
    optimize [DeleteAction 1 1 0 1; DeleteAction 1 2 1 2;
              InsertAction 0 (lit "ab") 2 3; InsertAction 2 (lit "c") 3 4]
    = Ok out
    /\ forall t : str,
        apply_all out t
        = apply_all [DeleteAction 1 1 0 1; DeleteAction 1 2 1 2;
                     InsertAction 0 (lit "ab") 2 3; InsertAction 2 (lit "c") 3 4] t.
Proof.
  apply (compaction_equivalence
           [DeleteAction 1 1 0 1; DeleteAction 1 2 1 2;
            InsertAction 0 (lit "ab") 2 3; InsertAction 2 (lit "c") 3 4]).
  repeat constructor; simpl; lia.
Defined.

(** C5, as stated, fails: two deletes at one position are merged by
    adding their lengths, and with lengths -1 and 1 the merged delete
    removes nothing from "abc" while the two original deletes leave the
    empty string.  The two deletes are the log of
    [negative_delete_history] from version 1 on. *)
Lemma compaction_equivalence_counterexample :
  __actions_list negative_delete_history
  = [InsertAction 0 (lit "abc") 0 1;
     DeleteAction 0 (-1) 1 2; DeleteAction 0 1 2 3]
  /\ optimize [DeleteAction 0 (-1) 1 2; DeleteAction 0 1 2 3]
     = Ok [DeleteAction 0 0 1 3]
  /\ apply_all [DeleteAction 0 (-1) 1 2; DeleteAction 0 1 2 3] (lit "abc")
     = Ok []
  /\ apply_all [DeleteAction 0 0 1 3] (lit "abc") = Ok (lit "abc")
  /\ apply_all [DeleteAction 0 0 1 3] (lit "abc")
     <> apply_all [DeleteAction 0 (-1) 1 2; DeleteAction 0 1 2 3] (lit "abc").
Proof.
  repeat split. vm_compute. discriminate.
Qed.

(** C4. Insert merge: when the last output action and the candidate are
    both inserts and the candidate's position is the last one's position
    plus the length of its content, the loop body replaces the last
    entry by one insert at the last one's position, with the two
    contents concatenated, from the last one's [from_version] to the
    candidate's [to_version].  After [insert("a",0)], [insert("b",1)],
    [insert("c",2)] on a fresh history, [get_actions()] returns exactly
    [insert("abc", 0)] from version 0 to version 3. *)
Theorem insert_merge_compaction :
  (forall (out : list Action) (p p' fv tv fv' tv' : Z) (c c' : str),
      p' = p + len c ->
      optimize_step (out ++ [InsertAction p c fv tv]) (InsertAction p' c' fv' tv')
      = Ok (out ++ [InsertAction p (c ++ c') fv tv'])
      /\ try_merge_insert (InsertAction p' c' fv' tv')
           (out ++ [InsertAction p c fv tv])
         = Ok (out ++ [InsertAction p (c ++ c') fv tv']))
  /\ run [CallInsert (lit "a") (Some 0); CallInsert (lit "b") (Some 1);
          CallInsert (lit "c") (Some 2)] init = (abc_history, 3%nat)
  /\ get_actions None None abc_history
     = (abc_history, Ok [InsertAction 0 (lit "abc") 0 3]).
Proof.
  split; [|split; reflexivity].
  intros out p p' fv tv fv' tv' c c' ->. split.
  - rewrite optimize_step_snoc. simpl. now rewrite Z.eqb_refl.
  - unfold try_merge_insert. rewrite list_last_snoc. simpl.
    now rewrite Z.eqb_refl, list_pop_snoc.
Qed.

Lemma insert_merge_compaction_witness :
  optimize_step [DeleteAction 0 1 0 1; InsertAction 4 (lit "ab") 1 2]
    (InsertAction 6 (lit "c") 2 3)
  = Ok [DeleteAction 0 1 0 1; InsertAction 4 (lit "abc") 1 3].
Proof.
  apply (proj1 insert_merge_compaction [DeleteAction 0 1 0 1]
           4 6 1 2 2 3 (lit "ab") (lit "c")).
  reflexivity.
Defined.

(** ** Range queries *)

Lemma select_loop_filter (from_v to_v : Z) (log acc : list Action) :
  select_loop from_v to_v log acc = acc ++ filter (in_window from_v to_v) log.
Proof.
  revert acc. induction log as [|a log IH]; intros acc; simpl.
  - now rewrite app_nil_r.
  - unfold in_window at 1.
    destruct ((from_v <=? from_version a) && (from_version a <? to_v)).
    + rewrite IH, <- app_assoc. reflexivity.
    + apply IH.
Qed.

(** [get_actions] with explicit bounds, as one conditional. *)
Lemma get_actions_unfold (f t : Z) (h : TextHistory) :
  get_actions (Some f) (Some t) h
  = (h, if (f >? _version h) || (t >? _version h) then Raise InvalidRange
        else if f >? t then Raise InvalidRange
        else if (f <? 0) || (t <? 0) then Raise InvalidRange
        else optimize (filter (in_window f t) (__actions_list h))).
Proof.
  unfold get_actions, bind, get_version, get_actions_list, raise, lift,
    InvalidRange. simpl.
  destruct ((f >? _version h) || (t >? _version h)); [reflexivity|].
  destruct (f >? t); [reflexivity|].
  destruct ((f <? 0) || (t <? 0)); [reflexivity|].
  now rewrite select_loop_filter.
Qed.

Lemma range_test_valid (f t v : Z) :
  0 <= f -> f <= t -> t <= v ->
  (f >? v) || (t >? v) = false /\ (f >? t) = false /\ (f <? 0) || (t <? 0) = false.
Proof.
  intros H0 H1 H2.
  destruct (Z.gtb_spec f v), (Z.gtb_spec t v), (Z.gtb_spec f t),
    (Z.ltb_spec f 0), (Z.ltb_spec t 0); simpl; try lia; auto.
Qed.

Lemma range_test_invalid (f t v : Z) :
  f < 0 \/ t < 0 \/ f > t \/ f > v \/ t > v ->
  (if (f >? v) || (t >? v) then true
   else if f >? t then true else (f <? 0) || (t <? 0)) = true.
Proof.
  intros H.
  destruct (Z.gtb_spec f v), (Z.gtb_spec t v), (Z.gtb_spec f t),
    (Z.ltb_spec f 0), (Z.ltb_spec t 0); simpl; try lia; auto.
Qed.

(** C6. Selection: for valid bounds [0 <= from_version <= to_version <=
    version], [get_actions] returns the compaction of the sublist of the
    log, in log order, made of exactly the actions [a] with
    [from_version <= a.from_version < to_version]; the history is left
    as it was. *)
Theorem get_actions_selection (h : TextHistory) (f t : Z) :
  0 <= f -> f <= t -> t <= version h ->
  exists out,
    get_actions (Some f) (Some t) h = (h, Ok out)
    /\ optimize
         (filter (fun a => (f <=? from_version a) && (from_version a <? t))
                 (__actions_list h))
       = Ok out.
Proof.
  intros H0 H1 H2.
  rewrite get_actions_unfold.
  destruct (range_test_valid f t (_version h) H0 H1 H2) as (-> & -> & ->).
  destruct (optimize_total (filter (in_window f t) (__actions_list h)))
    as [out Ho].
  exists out. split; [now rewrite Ho | exact Ho].
Qed.

Lemma get_actions_selection_witness :
  exists out,
    get_actions (Some 1) (Some 2) abc_history = (abc_history, Ok out)
    /\ optimize
         (filter (fun a => (1 <=? from_version a) && (from_version a <? 2))
                 (__actions_list abc_history))
       = Ok out.
Proof.
  apply (get_actions_selection abc_history 1 2); vm_compute; discriminate.
Defined.

(** C7. Range validation: with explicit bounds, [get_actions] raises,
    and then with the invalid-range error and nothing changed, if and
    only if a bound is negative, or [from_version > to_version], or a
    bound exceeds the current version.  So [get_actions(5, 2)] raises on
    every history, and so does [get_actions(to_version = version + k)]
    for [k > 0]. *)
Theorem get_actions_range_validation (h : TextHistory) (f t : Z) :
  (f < 0 \/ t < 0 \/ f > t \/ f > version h \/ t > version h ->
     get_actions (Some f) (Some t) h = (h, Raise InvalidRange))
  /\ (forall e, snd (get_actions (Some f) (Some t) h) = Raise e ->
        e = InvalidRange
        /\ (f < 0 \/ t < 0 \/ f > t \/ f > version h \/ t > version h))
  /\ get_actions (Some 5) (Some 2) h = (h, Raise InvalidRange)
  /\ (forall k, k > 0 ->
        get_actions None (Some (version h + k)) h = (h, Raise InvalidRange)).
Proof.
  unfold version. split; [|split; [|split]].
  - intros Hbad. rewrite get_actions_unfold.
    pose proof (range_test_invalid f t (_version h) Hbad) as Ht.
    destruct ((f >? _version h) || (t >? _version h)); [reflexivity|].
    destruct (f >? t); [reflexivity|]. now rewrite Ht.
  - intros e. rewrite get_actions_unfold. simpl.
    destruct (Z.gtb_spec f (_version h)), (Z.gtb_spec t (_version h)); simpl;
      try (intros [= <-]; split; [reflexivity | lia]).
    destruct (Z.gtb_spec f t);
      try (intros [= <-]; split; [reflexivity | lia]).
    destruct (Z.ltb_spec f 0), (Z.ltb_spec t 0); simpl;
      try (intros [= <-]; split; [reflexivity | lia]).
    intros He.
    destruct (optimize_total (filter (in_window f t) (__actions_list h)))
      as [out Ho].
    rewrite Ho in He. discriminate.
  - rewrite get_actions_unfold.
    destruct ((5 >? _version h) || (2 >? _version h)); reflexivity.
  - intros k Hk.
    unfold get_actions, bind, get_version, raise, InvalidRange. simpl.
    destruct (Z.gtb_spec (_version h + k) (_version h)); [|lia].
    now rewrite orb_true_r.
Qed.

Lemma get_actions_range_validation_witness :
  get_actions (Some 2) (Some 1000) abc_history = (abc_history, Raise InvalidRange)
  /\ get_actions None (Some (version abc_history + 997)) abc_history
     = (abc_history, Raise InvalidRange).
Proof.
  split.
  - apply (proj1 (get_actions_range_validation abc_history 2 1000)).
    right. right. right. right. reflexivity.
  - apply (proj2 (proj2 (proj2
             (get_actions_range_validation abc_history 0 0))) 997).
    reflexivity.
Defined.

(** ** Debug rendering *)

Example format_int_examples :
  format_int 0 = lit "0" /\ format_int 305 = lit "305"
  /\ format_int (-12) = lit "-12".
Proof. repeat split. Qed.

(** C9, as the code has it.  An insert renders as
    [insert(<content>, pos=<position>,], blanks, then
    [ver1=<from_version>, ver2=<to_version>)]; a replace likewise under
    the name [replace]; a delete renders as
    [delete(pos=<position>, length=<length>,], blanks, then the same
    version fields: its position comes first and both fields are
    labelled.  The blanks are one or more space characters. *)
Theorem debug_rendering (a : Action) :
  exists gap : str,
    gap <> [] /\ Forall (fun c => c = " "%char) gap
    /\ to_str a
       = match a with
         | InsertAction p c fv tv =>
             lit "insert(" ++ c ++ lit ", pos=" ++ format_int p ++ lit ","
               ++ gap ++ lit "ver1=" ++ format_int fv
               ++ lit ", ver2=" ++ format_int tv ++ lit ")"
         | ReplaceAction p c fv tv =>
             lit "replace(" ++ c ++ lit ", pos=" ++ format_int p ++ lit ","
               ++ gap ++ lit "ver1=" ++ format_int fv
               ++ lit ", ver2=" ++ format_int tv ++ lit ")"
         | DeleteAction p l fv tv =>
             lit "delete(pos=" ++ format_int p ++ lit ", length="
               ++ format_int l ++ lit ","
               ++ gap ++ lit "ver1=" ++ format_int fv
               ++ lit ", ver2=" ++ format_int tv ++ lit ")"
         end.
Proof.
  exists continuation_gap. split; [discriminate|]. split.
  - unfold continuation_gap. simpl. repeat constructor.
  - destruct a; reflexivity.
Qed.

(** C9, as stated, fails: an insert does not render as the one-blank
    template, and a delete renders its position before its length. *)
Lemma debug_rendering_counterexample :
  to_str (InsertAction 0 (lit "abc") 0 1)
  <> lit "insert(abc, pos=0, ver1=0, ver2=1)"
  /\ to_str (DeleteAction 3 2 0 1) <> lit "delete(2, pos=3, ver1=0, ver2=1)"
  /\ firstn 22 (to_str (DeleteAction 3 2 0 1)) = lit "delete(pos=3, length=2".
Proof.
  split; [|split]; [vm_compute; discriminate .. | reflexivity].
Qed.

(** ** Insert and delete on a text *)

Lemma len_firstn_le {A : Type} (n : nat) (l : list A) :
  (n <= List.length l)%nat -> len (firstn n l) = Z.of_nat n.
Proof. intros H. unfold len. now rewrite firstn_length_le. Qed.

Lemma len_skipn {A : Type} (n : nat) (l : list A) :
  (n <= List.length l)%nat -> len (skipn n l) = len l - Z.of_nat n.
Proof. intros H. unfold len. rewrite length_skipn. lia. Qed.

Lemma firstn_exact_app {A : Type} (n : nat) (l1 l2 : list A) :
  List.length l1 = n -> firstn n (l1 ++ l2) = l1.
Proof.
  intros <-.
  rewrite firstn_app, firstn_all, Nat.sub_diag, firstn_O. apply app_nil_r.
Qed.

Lemma skipn_exact_app {A : Type} (n : nat) (l1 l2 : list A) :
  List.length l1 = n -> skipn n (l1 ++ l2) = l2.
Proof. intros <-. rewrite skipn_app, skipn_all, Nat.sub_diag. reflexivity. Qed.

(** X1. [InsertAction.apply]: inside [0 <= pos <= len text] the content
    is put before index [pos], the rest of the text is kept on both
    sides and the length grows by the length of the content; outside it
    the call raises, and it raises in no other case. *)
Theorem insert_apply_semantics (t c : str) (p fv tv : Z) :
  (0 <= p <= len t ->
     apply (InsertAction p c fv tv) t
     = Ok (firstn (Z.to_nat p) t ++ c ++ skipn (Z.to_nat p) t))
  /\ (p < 0 \/ p > len t ->
        apply (InsertAction p c fv tv) t
        = Raise (ValueError "incorrect pos in InsertAction."))
  /\ (forall r, apply (InsertAction p c fv tv) t = Ok r ->
        0 <= p <= len t /\ len r = len t + len c).
Proof.
  unfold apply.
  destruct (Z.gtb_spec p (len t)) as [Hgt|Hle];
    destruct (Z.ltb_spec p 0) as [Hneg|Hpos]; simpl;
    try (split; [intros; lia | split; [reflexivity | discriminate]]).
  assert (Hn : (Z.to_nat p <= List.length t)%nat) by (unfold len in Hle; lia).
  rewrite slice_to_firstn, slice_from_skipn by lia.
  split; [reflexivity|]. split; [intros; lia|].
  intros r [= <-]. split; [lia|].
  rewrite !len_app, len_firstn_le, len_skipn by assumption. lia.
Qed.

Lemma insert_apply_semantics_witness :
  apply (InsertAction 2 (lit "XY") 0 1) (lit "hello") = Ok (lit "heXYllo")
  /\ apply (InsertAction 6 (lit "XY") 0 1) (lit "hello")
     = Raise (ValueError "incorrect pos in InsertAction.").
Proof.
  split.
  - apply (proj1 (insert_apply_semantics (lit "hello") (lit "XY") 2 0 1)).
    vm_compute. split; discriminate.
  - apply (proj1 (proj2 (insert_apply_semantics (lit "hello") (lit "XY") 6 0 1))).
    right. reflexivity.
Defined.

(** X2. [DeleteAction.apply] with a non-negative length: when
    [0 <= pos] and [pos + length <= len text] the window of [length]
    characters at [pos] is removed and the text gets shorter by
    [length]; it raises exactly when [pos < 0] or
    [pos + length > len text]. *)
Theorem delete_apply_semantics (t : str) (p l fv tv : Z) :
  (0 <= l -> 0 <= p -> p + l <= len t ->
     apply (DeleteAction p l fv tv) t
     = Ok (firstn (Z.to_nat p) t ++ skipn (Z.to_nat (p + l)) t)
     /\ len (firstn (Z.to_nat p) t ++ skipn (Z.to_nat (p + l)) t) = len t - l)
  /\ (p < 0 \/ p + l > len t ->
        apply (DeleteAction p l fv tv) t
        = Raise (ValueError "incorrect pos in DeleteAction."))
  /\ (forall e, apply (DeleteAction p l fv tv) t = Raise e ->
        p < 0 \/ p + l > len t).
Proof.
  unfold apply.
  destruct (Z.gtb_spec (p + l) (len t)) as [Hgt|Hle];
    destruct (Z.ltb_spec p 0) as [Hneg|Hpos]; simpl;
    try (split; [intros; lia | split; [reflexivity | intros; lia]]).
  split; [|split; [intros; lia | discriminate]].
  intros Hl _ _.
  rewrite slice_to_firstn, slice_from_skipn by lia.
  split; [reflexivity|].
  unfold len in Hle.
  rewrite len_app, len_firstn_le, len_skipn by lia. lia.
Qed.

Lemma delete_apply_semantics_witness :
  (apply (DeleteAction 1 3 0 1) (lit "hello") = Ok (lit "ho")
   /\ len (lit "ho") = len (lit "hello") - 3)
  /\ apply (DeleteAction 3 10 0 1) (lit "hello")
     = Raise (ValueError "incorrect pos in DeleteAction.").
Proof.
  split.
  - apply (proj1 (delete_apply_semantics (lit "hello") 1 3 0 1));
      vm_compute; discriminate.
  - apply (proj1 (proj2 (delete_apply_semantics (lit "hello") 3 10 0 1))).
    right. reflexivity.
Defined.

(** X3. A delete with a negative length is not rejected: with
    [0 <= pos <= len text] and [0 <= pos + length] it succeeds, keeps
    the text up to [pos], repeats the [-length] characters before [pos]
    and so returns a text longer than the one it got. *)
Theorem delete_negative_length_grows (t : str) (p l fv tv : Z) :
  l < 0 -> 0 <= p + l -> p <= len t ->
  exists r,
    apply (DeleteAction p l fv tv) t = Ok r
    /\ r = firstn (Z.to_nat p) t ++ skipn (Z.to_nat (p + l)) t
    /\ len r = len t - l
    /\ len t < len r.
Proof.
  intros Hl Hpl Hp. unfold apply.
  destruct (Z.gtb_spec (p + l) (len t)); [lia|].
  destruct (Z.ltb_spec p 0); [lia|]. simpl.
  rewrite slice_to_firstn, slice_from_skipn by lia.
  eexists. split; [reflexivity|]. split; [reflexivity|].
  unfold len in Hp.
  rewrite len_app, len_firstn_le, len_skipn by lia. lia.
Qed.

Lemma delete_negative_length_grows_witness :
  exists r,
    apply (DeleteAction 3 (-2) 0 1) (lit "abc") = Ok r
    /\ r = firstn (Z.to_nat 3) (lit "abc") ++ skipn (Z.to_nat (3 + -2)) (lit "abc")
    /\ len r = len (lit "abc") - -2
    /\ len (lit "abc") < len r.
Proof.
  apply (delete_negative_length_grows (lit "abc") 3 (-2) 0 1);
    vm_compute; (reflexivity || discriminate).
Defined.

Lemma rbind_Ok_l {A B : Type} (a : A) (k : A -> result B) :
  rbind (Ok a) k = k a.
Proof. reflexivity. Qed.

(** X4. Undo by the opposite action: deleting at [pos] as many
    characters as an insert at [pos] has just put there gives the text
    back, and inserting at [pos] the window a delete has just removed
    gives the text back too. *)
Theorem insert_delete_round_trip (t c : str) (p l f1 v1 f2 v2 : Z) :
  (0 <= p <= len t ->
     apply_all [InsertAction p c f1 v1; DeleteAction p (len c) f2 v2] t = Ok t)
  /\ (0 <= l -> 0 <= p -> p + l <= len t ->
        apply_all [DeleteAction p l f1 v1;
                   InsertAction p (firstn (Z.to_nat l) (skipn (Z.to_nat p) t)) f2 v2] t
        = Ok t).
Proof.
  split.
  - intros Hp.
    destruct (insert_apply_semantics t c p f1 v1) as [Hi _].
    rewrite apply_all_pair, (Hi Hp), rbind_Ok_l.
    set (n := Z.to_nat p).
    assert (Hn : (n <= List.length t)%nat) by (unfold len in Hp; lia).
    assert (Hlen : len (firstn n t ++ c ++ skipn n t) = len t + len c).
    { rewrite !len_app, len_firstn_le, len_skipn by assumption. lia. }
    pose proof (len_nonneg c) as Hc.
    destruct (delete_apply_semantics (firstn n t ++ c ++ skipn n t)
                p (len c) f2 v2) as [Hd _].
    destruct (Hd Hc (proj1 Hp) ltac:(lia)) as [-> _].
    apply f_equal. fold n.
    assert (Hfn : List.length (firstn n t) = n) by now apply firstn_length_le.
    rewrite firstn_exact_app by assumption.
    rewrite app_assoc, skipn_exact_app
      by (rewrite length_app, Hfn; unfold n, len; lia).
    apply firstn_skipn.
  - intros Hl Hp Hpl.
    destruct (delete_apply_semantics t p l f1 v1) as [Hd _].
    destruct (Hd Hl Hp Hpl) as [Hd1 Hd2].
    rewrite apply_all_pair, Hd1, rbind_Ok_l.
    set (n := Z.to_nat p) in *. set (k := Z.to_nat l).
    assert (Hnk : Z.to_nat (p + l) = (k + n)%nat) by (unfold n, k; lia).
    rewrite Hnk in *.
    assert (Hle : (k + n <= List.length t)%nat) by (unfold len in Hpl; lia).
    destruct (insert_apply_semantics (firstn n t ++ skipn (k + n) t)
                (firstn k (skipn n t)) p f2 v2) as [Hi _].
    rewrite Hi by lia. apply f_equal. fold n.
    assert (Hfn : List.length (firstn n t) = n) by (apply firstn_length_le; lia).
    rewrite firstn_exact_app, skipn_exact_app by assumption.
    rewrite <- skipn_skipn, firstn_skipn. apply firstn_skipn.
Qed.

Lemma insert_delete_round_trip_witness :
  apply_all [InsertAction 2 (lit "XY") 0 1; DeleteAction 2 (len (lit "XY")) 1 2]
    (lit "hello") = Ok (lit "hello")
  /\ apply_all [DeleteAction 1 3 0 1;
                InsertAction 1 (firstn (Z.to_nat 3) (skipn (Z.to_nat 1) (lit "hello"))) 1 2]
       (lit "hello") = Ok (lit "hello").
Proof.
  split.
  - apply (proj1 (insert_delete_round_trip (lit "hello") (lit "XY") 2 0 0 1 1 2)).
    vm_compute. split; discriminate.
  - apply (proj2 (insert_delete_round_trip (lit "hello") [] 1 3 0 1 1 2));
      vm_compute; discriminate.
Defined.

(** ** Replace on a text *)

Lemma replace_apply_semantics_aux (t c : str) (p fv tv : Z) :
  0 <= p <= len t ->
  (p + len c >= len t ->
     apply (ReplaceAction p c fv tv) t = Ok (firstn (Z.to_nat p) t ++ c))
  /\ (p + len c < len t ->
       apply (ReplaceAction p c fv tv) t
       = Ok (firstn (Z.to_nat p) t ++ c ++ skipn (Z.to_nat (p + len c)) t)).
Proof.
  intros Hp. pose proof (len_nonneg c) as Hc. unfold apply.
  destruct (Z.gtb_spec p (len t)); [lia|].
  destruct (Z.ltb_spec p 0); [lia|]. simpl.
  split; intros Hend.
  - destruct (Z.geb_spec (p + len c) (len t)); [|lia].
    now rewrite slice_to_firstn.
  - destruct (Z.geb_spec (p + len c) (len t)); [lia|].
    rewrite slice_to_firstn by lia. now rewrite slice_from_skipn by lia.
Qed.

(** Both branches of [ReplaceAction.apply] compute one expression: past
    the end of the text the slice [text[end_idx:]] is empty. *)
Lemma replace_apply_uniform (t c : str) (p fv tv : Z) :
  0 <= p <= len t ->
  apply (ReplaceAction p c fv tv) t
  = Ok (firstn (Z.to_nat p) t ++ c ++ skipn (Z.to_nat p + List.length c) t).
Proof.
  intros Hp. pose proof (len_nonneg c) as Hc.
  destruct (replace_apply_semantics_aux t c p fv tv Hp) as [Ht Hs].
  replace (Z.to_nat p + List.length c)%nat with (Z.to_nat (p + len c))
    by (unfold len; lia).
  destruct (Z_lt_ge_dec (p + len c) (len t)) as [Hlt|Hge].
  - now apply Hs.
  - rewrite (Ht Hge). apply f_equal.
    rewrite skipn_all2 by (unfold len in *; lia).
    now rewrite app_nil_r.
Qed.

(** X5. What a replace leaves: with [0 <= pos <= len text] the result
    is [text[:pos] + content + text[pos + len content:]] in both
    branches, its length is the larger of [len text] and
    [pos + len content], it agrees with the text before [pos], holds the
    content at [pos], and agrees with the text after the content. *)
Theorem replace_overwrites (t c : str) (p fv tv : Z) :
  0 <= p <= len t ->
  exists r,
    apply (ReplaceAction p c fv tv) t = Ok r
    /\ r = firstn (Z.to_nat p) t ++ c ++ skipn (Z.to_nat (p + len c)) t
    /\ len r = Z.max (len t) (p + len c)
    /\ firstn (Z.to_nat p) r = firstn (Z.to_nat p) t
    /\ firstn (List.length c) (skipn (Z.to_nat p) r) = c
    /\ skipn (Z.to_nat (p + len c)) r = skipn (Z.to_nat (p + len c)) t.
Proof.
  intros Hp. pose proof (len_nonneg c) as Hc.
  rewrite (replace_apply_uniform t c p fv tv Hp).
  replace (Z.to_nat (p + len c)) with (Z.to_nat p + List.length c)%nat
    by (unfold len; lia).
  set (n := Z.to_nat p).
  assert (Hn : (n <= List.length t)%nat) by (unfold len in Hp; lia).
  assert (Hfn : List.length (firstn n t) = n) by now apply firstn_length_le.
  eexists. split; [reflexivity|]. split; [reflexivity|].
  split; [|split; [|split]].
  - rewrite !len_app, len_firstn_le by assumption.
    unfold len. rewrite length_skipn. unfold len in Hp. lia.
  - now apply firstn_exact_app.
  - rewrite skipn_exact_app by assumption. now apply firstn_exact_app.
  - rewrite app_assoc. apply skipn_exact_app.
    rewrite length_app. lia.
Qed.

Lemma replace_overwrites_witness :
  exists r,
    apply (ReplaceAction 4 (lit "XY") 0 1) (lit "hello") = Ok r
    /\ r = firstn (Z.to_nat 4) (lit "hello") ++ lit "XY"
           ++ skipn (Z.to_nat (4 + len (lit "XY"))) (lit "hello")
    /\ len r = Z.max (len (lit "hello")) (4 + len (lit "XY"))
    /\ firstn (Z.to_nat 4) r = firstn (Z.to_nat 4) (lit "hello")
    /\ firstn (List.length (lit "XY")) (skipn (Z.to_nat 4) r) = lit "XY"
    /\ skipn (Z.to_nat (4 + len (lit "XY"))) r
       = skipn (Z.to_nat (4 + len (lit "XY"))) (lit "hello").
Proof.
  apply (replace_overwrites (lit "hello") (lit "XY") 4 0 1).
  vm_compute. split; discriminate.
Defined.

(** X6. A replace is idempotent: applying the same replace twice gives
    what applying it once gives, the exception included. *)
Theorem replace_idempotent (t c : str) (p f1 v1 f2 v2 : Z) :
  apply_all [ReplaceAction p c f1 v1; ReplaceAction p c f2 v2] t
  = apply (ReplaceAction p c f1 v1) t.
Proof.
  rewrite apply_all_pair.
  destruct (Z_le_gt_dec 0 p) as [H0|Hneg];
    [destruct (Z_le_gt_dec p (len t)) as [Hle|Hgt]|].
  - rewrite (replace_apply_uniform t c p f1 v1 (conj H0 Hle)), rbind_Ok_l.
    set (n := Z.to_nat p).
    assert (Hn : (n <= List.length t)%nat) by (unfold len in Hle; lia).
    assert (Hfn : List.length (firstn n t) = n) by now apply firstn_length_le.
    rewrite replace_apply_uniform.
    + fold n. apply f_equal.
      rewrite firstn_exact_app by assumption.
      assert (E : forall x : str,
                 skipn (n + List.length c) (firstn n t ++ c ++ x) = x).
      { intros x. rewrite app_assoc. apply skipn_exact_app.
        rewrite length_app. lia. }
      now rewrite E.
    + rewrite len_app, len_firstn_le by assumption.
      pose proof (len_nonneg (c ++ skipn (n + List.length c) t)). lia.
  - unfold apply. destruct (Z.gtb_spec p (len t)); [reflexivity | lia].
  - unfold apply. destruct (Z.ltb_spec p 0); [|lia].
    now rewrite orb_true_r.
Qed.

(** ** The mutation methods *)

Lemma slice_to_all {A : Type} (s : list A) : slice_to s (len s) = s.
Proof.
  rewrite slice_to_firstn by (pose proof (len_nonneg s); lia).
  unfold len. rewrite Nat2Z.id. apply firstn_all.
Qed.

Lemma slice_from_all {A : Type} (s : list A) : slice_from s (len s) = [].
Proof.
  rewrite slice_from_skipn by (pose proof (len_nonneg s); lia).
  unfold len. rewrite Nat2Z.id. apply skipn_all.
Qed.

Lemma insert_default_commits (h : TextHistory) (txt : str) :
  insert txt None h
  = ({| _text := _text h ++ txt; _version := _version h + 1;
        __actions_list :=
          __actions_list h
          ++ [InsertAction (len (_text h)) txt (_version h) (_version h + 1)] |},
     Ok (_version h + 1)).
Proof.
  pose proof (len_nonneg (_text h)) as Ht.
  unfold insert, bind, get_text, get_version.
  rewrite (action_commits _ h (_text h ++ txt)); [reflexivity..|].
  unfold apply.
  destruct (Z.gtb_spec (len (_text h)) (len (_text h))); [lia|].
  destruct (Z.ltb_spec (len (_text h)) 0); [lia|]. simpl.
  now rewrite slice_to_all, slice_from_all, app_nil_r.
Qed.

(** X7. Without a position, [insert] and [replace] both append: the
    call never raises, returns the old version plus one, leaves the text
    followed by the new content, and logs one action at position
    [len text], an insert or a replace according to the method. *)
Theorem default_position_appends (h : TextHistory) (txt : str) :
  insert txt None h
  = ({| _text := _text h ++ txt; _version := _version h + 1;
        __actions_list :=
          __actions_list h
          ++ [InsertAction (len (_text h)) txt (_version h) (_version h + 1)] |},
     Ok (_version h + 1))
  /\ replace txt None h
     = ({| _text := _text h ++ txt; _version := _version h + 1;
           __actions_list :=
             __actions_list h
             ++ [ReplaceAction (len (_text h)) txt (_version h) (_version h + 1)] |},
        Ok (_version h + 1)).
Proof.
  pose proof (len_nonneg (_text h)) as Ht.
  pose proof (len_nonneg txt) as Hx.
  split.
  - apply insert_default_commits.
  - unfold replace, bind, get_text, get_version.
    rewrite (action_commits _ h (_text h ++ txt)); [reflexivity..|].
    unfold apply.
    destruct (Z.gtb_spec (len (_text h)) (len (_text h))); [lia|].
    destruct (Z.ltb_spec (len (_text h)) 0); [lia|]. simpl.
    destruct (Z.geb_spec (len (_text h) + len txt) (len (_text h))); [|lia].
    now rewrite slice_to_all.
Qed.

(** X8. [insert], [replace] and [delete] are all-or-nothing: a call that
    raises leaves text, version and log as they were; a call that
    returns gives back the old version plus one, which is the new
    version, and has put exactly one action at the end of the log, from
    the old version to the new one, whose [apply] turns the old text
    into the new text. *)
Theorem mutation_all_or_nothing (m : Mutation) (h h' : TextHistory) (r : result Z) :
  call m h = (h', r) ->
  match r with
  | Raise _ => h' = h
  | Ok v =>
      v = version h + 1
      /\ version h' = version h + 1
      /\ exists a,
          __actions_list h' = __actions_list h ++ [a]
          /\ from_version a = version h
          /\ to_version a = version h + 1
          /\ apply a (text h) = Ok (text h')
  end.
Proof.
  intros Hcall.
  destruct (call_cases m h) as [[e He]|[a [t' (Hf & Ht & Ha & Hc)]]].
  - rewrite He in Hcall. injection Hcall as <- <-. reflexivity.
  - rewrite Hc in Hcall. injection Hcall as <- <-.
    repeat split. exists a. simpl. auto.
Qed.

Lemma mutation_all_or_nothing_witness :
  fst (call (CallDelete 3 10) abc_history) = abc_history.
Proof.
  exact (mutation_all_or_nothing (CallDelete 3 10) abc_history
           (fst (call (CallDelete 3 10) abc_history))
           (Raise (ValueError "incorrect pos in DeleteAction.")) eq_refl).
Defined.

(** ** More on the compaction pass *)

(** X9. Delete merge: when the last output action and the candidate are
    both deletes at one position, the loop body (and [try_merge_delete]
    itself) replaces the last entry by one delete at that position whose
    length is the sum of the two lengths, from the last entry's
    [from_version] to the candidate's [to_version]; when the positions
    differ the candidate is appended as it is. *)
Theorem delete_merge_compaction
    (out : list Action) (p p' l l' fv tv fv' tv' : Z) :
  optimize_step (out ++ [DeleteAction p l fv tv]) (DeleteAction p l' fv' tv')
  = Ok (out ++ [DeleteAction p (l + l') fv tv'])
  /\ try_merge_delete (DeleteAction p l' fv' tv') (out ++ [DeleteAction p l fv tv])
     = Ok (out ++ [DeleteAction p (l + l') fv tv'])
  /\ (p' <> p ->
      optimize_step (out ++ [DeleteAction p l fv tv]) (DeleteAction p' l' fv' tv')
      = Ok (out ++ [DeleteAction p l fv tv; DeleteAction p' l' fv' tv'])).
Proof.
  split; [|split].
  - rewrite optimize_step_snoc. simpl. now rewrite Z.eqb_refl.
  - unfold try_merge_delete. rewrite list_last_snoc. simpl.
    now rewrite Z.eqb_refl, list_pop_snoc.
  - intros Hne. rewrite optimize_step_snoc. simpl.
    destruct (Z.eqb_spec p p'); [congruence | reflexivity].
Qed.

Lemma delete_merge_compaction_witness :
  optimize_step [DeleteAction 0 1 0 1] (DeleteAction 4 1 1 2)
  = Ok [DeleteAction 0 1 0 1; DeleteAction 4 1 1 2].
Proof.
  apply (proj2 (proj2 (delete_merge_compaction [] 0 4 1 1 0 1 1 2))).
  discriminate.
Defined.

Lemma merge_pair_unmergeable (pre a : Action) :
  mergeable pre a = false -> merge_pair pre a = [pre; a].
Proof.
  destruct pre, a; simpl; trivial; intros ->; reflexivity.
Qed.

(** X10. What the pass never merges: a candidate is appended unchanged
    when the output list is empty, when it is a replace, when the last
    output action is of another kind, and when it is an insert whose
    position is not the end of the last insert. *)
Theorem optimize_step_appends (out : list Action) (pre a : Action) :
  optimize_step [] a = Ok [a]
  /\ (forall p c fv tv,
        optimize_step out (ReplaceAction p c fv tv)
        = Ok (out ++ [ReplaceAction p c fv tv]))
  /\ (isinstance_type pre a = false ->
        optimize_step (out ++ [pre]) a = Ok (out ++ [pre; a]))
  /\ (forall p c fv tv p' c' fv' tv',
        p' <> p + len c ->
        optimize_step (out ++ [InsertAction p c fv tv]) (InsertAction p' c' fv' tv')
        = Ok (out ++ [InsertAction p c fv tv; InsertAction p' c' fv' tv'])).
Proof.
  split; [reflexivity|]. split; [|split].
  - intros p c fv tv.
    destruct (list_empty_or_snoc out) as [->|[o [x ->]]]; [reflexivity|].
    rewrite optimize_step_snoc, merge_pair_unmergeable, <- app_assoc.
    + reflexivity.
    + now destruct x.
  - intros Hk. rewrite optimize_step_snoc, merge_pair_unmergeable; trivial.
    destruct pre, a; simpl in *; trivial; discriminate.
  - intros p c fv tv p' c' fv' tv' Hne.
    rewrite optimize_step_snoc, merge_pair_unmergeable; trivial.
    simpl. now apply Z.eqb_neq.
Qed.

Lemma optimize_step_appends_witness :
  optimize_step [InsertAction 0 (lit "a") 0 1] (DeleteAction 0 1 1 2)
  = Ok [InsertAction 0 (lit "a") 0 1; DeleteAction 0 1 1 2]
  /\ optimize_step [InsertAction 0 (lit "a") 0 1] (InsertAction 5 (lit "b") 1 2)
     = Ok [InsertAction 0 (lit "a") 0 1; InsertAction 5 (lit "b") 1 2].
Proof.
  split.
  - apply (proj1 (proj2 (proj2
             (optimize_step_appends [] (InsertAction 0 (lit "a") 0 1)
                (DeleteAction 0 1 1 2))))).
    reflexivity.
  - apply (proj2 (proj2 (proj2
             (optimize_step_appends [] (InsertAction 0 (lit "a") 0 1)
                (DeleteAction 0 1 1 2))))
             0 (lit "a") 0 1 5 (lit "b") 1 2).
    discriminate.
Defined.

(** X11. Called on their own the two merge helpers raise: [IndexError]
    on an empty output list, [AttributeError] when the last entry has no
    [text] (insert helper) or an entry at the same position has no
    [length] (delete helper).  [optimize] guards every call, so it never
    raises, on any list of actions. *)
Theorem optimize_never_raises (l out : list Action) (a : Action) :
  try_merge_insert a [] = Raise IndexError
  /\ try_merge_delete a [] = Raise IndexError
  /\ (forall p n fv tv,
        try_merge_insert a (out ++ [DeleteAction p n fv tv]) = Raise AttributeError)
  /\ (forall c fv tv,
        try_merge_delete a (out ++ [InsertAction (pos a) c fv tv])
        = Raise AttributeError)
  /\ exists res, optimize l = Ok res.
Proof.
  split; [reflexivity|]. split; [reflexivity|]. split; [|split].
  - intros p n fv tv. unfold try_merge_insert. now rewrite list_last_snoc.
  - intros c fv tv. unfold try_merge_delete. rewrite list_last_snoc. simpl.
    now rewrite Z.eqb_refl.
  - apply optimize_total.
Qed.

(** *** Adjacent entries *)

Lemma last_entry_snoc (l : list Action) (x : Action) :
  last_entry (l ++ [x]) = Some x.
Proof. unfold last_entry. now rewrite rev_app_distr. Qed.

Lemma last_entry_app (x y : list Action) :
  y <> [] -> last_entry (x ++ y) = last_entry y.
Proof.
  intros Hy. destruct (list_empty_or_snoc y) as [->|[y' [b ->]]]; [congruence|].
  now rewrite app_assoc, !last_entry_snoc.
Qed.

Lemma first_entry_app (x y : list Action) :
  x <> [] -> first_entry (x ++ y) = first_entry x.
Proof. destruct x; [congruence | reflexivity]. Qed.

Lemma last_entry_cons (a : Action) (l : list Action) :
  l <> [] -> last_entry (a :: l) = last_entry l.
Proof. intros Hl. now apply (last_entry_app [a] l). Qed.

Section Adjacent.

Variable R : Action -> Action -> Prop.

Lemma adjacent_app (x y : list Action) :
  adjacent R (x ++ y) <-> adjacent R x /\ adjacent R y /\ junction R x y.
Proof.
  unfold junction. induction x as [|a0 x IH].
  - simpl. split; [intros H; repeat split; trivial; discriminate | tauto].
  - destruct x as [|a1 x].
    + destruct y as [|b y]; simpl.
      * split; [intros _; repeat split; trivial; discriminate | trivial].
      * split.
        -- intros [Hab Hy]. repeat split; trivial.
           intros a b' [= <-] [= <-]. exact Hab.
        -- intros (_ & Hy & Hj). split; [now apply Hj | exact Hy].
    + change ((a0 :: a1 :: x) ++ y) with (a0 :: ((a1 :: x) ++ y)).
      change (adjacent R (a0 :: (a1 :: x) ++ y))
        with (R a0 a1 /\ adjacent R ((a1 :: x) ++ y)).
      change (adjacent R (a0 :: a1 :: x))
        with (R a0 a1 /\ adjacent R (a1 :: x)).
      rewrite last_entry_cons by discriminate.
      tauto.
Qed.

Lemma adjacent_snoc (l : list Action) (x y : Action) :
  adjacent R (l ++ [x]) -> R x y -> adjacent R (l ++ [x; y]).
Proof.
  intros Hl Hxy.
  change [x; y] with ([x] ++ [y]). rewrite app_assoc.
  apply adjacent_app. repeat split; trivial.
  intros a b Ha [= <-]. rewrite last_entry_snoc in Ha.
  injection Ha as <-. exact Hxy.
Qed.

Lemma adjacent_replace_last (l : list Action) (x m : Action) :
  adjacent R (l ++ [x]) -> (forall q, R q x -> R q m) ->
  adjacent R (l ++ [m]).
Proof.
  intros Hl Hq. apply adjacent_app in Hl. destruct Hl as (Hl & _ & Hj).
  apply adjacent_app. repeat split; trivial.
  intros a b Ha [= <-]. apply Hq. now apply Hj.
Qed.

Lemma adjacent_mid (l1 l2 : list Action) (x y : Action) :
  adjacent R (l1 ++ x :: y :: l2) -> R x y.
Proof.
  intros H. apply adjacent_app in H. destruct H as (_ & H & _).
  exact (proj1 H).
Qed.

End Adjacent.

(** *** The output of the pass is compact *)

Lemma merge_pair_mergeable (pre a : Action) :
  mergeable pre a = true ->
  exists m,
    merge_pair pre a = [m]
    /\ from_version m = from_version pre
    /\ to_version m = to_version a
    /\ forall q, mergeable q m = mergeable q pre.
Proof.
  destruct pre as [p1 t1 f1 v1|p1 t1 f1 v1|p1 l1 f1 v1];
    destruct a as [p2 t2 f2 v2|p2 t2 f2 v2|p2 l2 f2 v2];
    simpl; try discriminate; intros Hm; rewrite Hm.
  - eexists. repeat split.
  - apply Z.eqb_eq in Hm. subst p2.
    eexists. repeat split.
Qed.

Lemma optimize_step_compact (out : list Action) (a : Action) :
  compact out ->
  exists out1, optimize_step out a = Ok out1 /\ compact out1.
Proof.
  intros Hc.
  destruct (list_empty_or_snoc out) as [->|[o [pre ->]]].
  - exists [a]. now split.
  - rewrite optimize_step_snoc. eexists. split; [reflexivity|].
    destruct (mergeable pre a) eqn:Hm.
    + destruct (merge_pair_mergeable pre a Hm) as [m (-> & _ & _ & Hq)].
      apply (adjacent_replace_last _ o pre m Hc).
      intros q. now rewrite Hq.
    + rewrite (merge_pair_unmergeable pre a Hm).
      now apply adjacent_snoc.
Qed.

Lemma optimize_loop_compact (l out : list Action) :
  compact out ->
  exists out', optimize_loop l out = Ok out' /\ compact out'.
Proof.
  revert out. induction l as [|a l IH]; intros out Hc; simpl.
  - now exists out.
  - destruct (optimize_step_compact out a Hc) as [out1 [-> H1]].
    rewrite rbind_Ok_l. now apply IH.
Qed.

Lemma optimize_loop_fixed (l out : list Action) :
  compact (out ++ l) -> optimize_loop l out = Ok (out ++ l).
Proof.
  revert out. induction l as [|a l IH]; intros out Hc; simpl.
  - now rewrite app_nil_r.
  - assert (Hstep : optimize_step out a = Ok (out ++ [a])).
    { destruct (list_empty_or_snoc out) as [->|[o [pre ->]]]; [reflexivity|].
      rewrite optimize_step_snoc, merge_pair_unmergeable, <- app_assoc;
        [reflexivity|].
      rewrite <- app_assoc in Hc. exact (adjacent_mid _ _ _ _ _ Hc). }
    rewrite Hstep, rbind_Ok_l, IH; rewrite <- app_assoc; trivial.
Qed.

(** X12. The pass reaches a fixed point in one run: in its output no
    entry can be merged with the next one, and running the pass on its
    own output gives that output back. *)
Theorem optimize_idempotent (l : list Action) :
  exists out,
    optimize l = Ok out
    /\ compact out
    /\ optimize out = Ok out.
Proof.
  destruct (optimize_loop_compact l [] I) as [out [Ho Hc]].
  exists out. split; [exact Ho|]. split; [exact Hc|].
  apply (optimize_loop_fixed out []). exact Hc.
Qed.

(** *** Shape of the output *)

Lemma optimize_step_shape (out : list Action) (a : Action) :
  exists out1,
    optimize_step out a = Ok out1
    /\ out1 <> []
    /\ (List.length out1 <= S (List.length out))%nat
    /\ option_map from_version (first_entry out1)
       = option_map from_version (first_entry (out ++ [a]))
    /\ option_map to_version (last_entry out1) = Some (to_version a)
    /\ (chained (out ++ [a]) -> chained out1).
Proof.
  destruct (list_empty_or_snoc out) as [->|[o [pre ->]]].
  - exists [a]. repeat split; auto. discriminate.
  - rewrite optimize_step_snoc. eexists. split; [reflexivity|].
    destruct (mergeable pre a) eqn:Hm.
    + destruct (merge_pair_mergeable pre a Hm) as [m (-> & Hf & Ht & _)].
      split; [now destruct o|]. split; [rewrite !length_app; simpl; lia|].
      split; [destruct o; simpl; [now rewrite Hf | reflexivity]|].
      split; [rewrite last_entry_snoc; simpl; now rewrite Ht|].
      intros Hc. apply adjacent_app in Hc. destruct Hc as (Hc & _ & _).
      apply (adjacent_replace_last _ o pre m Hc).
      intros q. now rewrite Hf.
    + rewrite (merge_pair_unmergeable pre a Hm).
      change [pre; a] with ([pre] ++ [a]). rewrite app_assoc.
      split; [now destruct o|]. split; [rewrite !length_app; simpl; lia|].
      split; [reflexivity|].
      split; [now rewrite last_entry_snoc | trivial].
Qed.

Lemma optimize_loop_shape (l out : list Action) :
  exists out',
    optimize_loop l out = Ok out'
    /\ (List.length out' <= List.length out + List.length l)%nat
    /\ (out' = [] <-> out ++ l = [])
    /\ option_map from_version (first_entry out')
       = option_map from_version (first_entry (out ++ l))
    /\ option_map to_version (last_entry out')
       = option_map to_version (last_entry (out ++ l))
    /\ (chained (out ++ l) -> chained out').
Proof.
  revert out. induction l as [|a l IH]; intros out.
  - exists out. rewrite app_nil_r. repeat split; auto. simpl. lia.
  - destruct (optimize_step_shape out a) as [out1 (Hs & Hne & Hlen & Hf & Ht & Hc)].
    destruct (IH out1) as [out' (Ho & Hlen' & He' & Hf' & Ht' & Hc')].
    exists out'. simpl optimize_loop. rewrite Hs, rbind_Ok_l.
    split; [exact Ho|].
    assert (Hassoc : out ++ a :: l = (out ++ [a]) ++ l)
      by now rewrite <- app_assoc.
    assert (Hne1 : out ++ [a] <> []) by now destruct out.
    split; [simpl; lia|]. split; [|split; [|split]].
    + rewrite He'. split; intros H.
      * apply app_eq_nil in H. now destruct H.
      * rewrite Hassoc in H. apply app_eq_nil in H. now destruct H.
    + rewrite Hf', Hassoc, !first_entry_app by assumption. exact Hf.
    + rewrite Ht', Hassoc.
      destruct l as [|b l].
      * rewrite !app_nil_r, last_entry_snoc. exact Ht.
      * rewrite !last_entry_app by discriminate. reflexivity.
    + rewrite Hassoc. intros Hch.
      apply adjacent_app in Hch. destruct Hch as (H1 & H2 & Hj).
      apply Hc'. apply adjacent_app.
      split; [exact (Hc H1)|]. split; [exact H2|].
      intros x b Hx Hb. rewrite Hx in Ht. injection Ht as Ht. rewrite Ht.
      apply Hj; [apply last_entry_snoc | exact Hb].
Qed.

(** X13. What the pass keeps: its output is never longer than its
    input and is empty only for an empty input; it starts at the
    [from_version] of the first input action and ends at the
    [to_version] of the last one; and when every input action starts at
    the version where the previous one ends, so does every output
    action. *)
Theorem optimize_shape (l : list Action) :
  exists out,
    optimize l = Ok out
    /\ (List.length out <= List.length l)%nat
    /\ (out = [] <-> l = [])
    /\ option_map from_version (first_entry out)
       = option_map from_version (first_entry l)
    /\ option_map to_version (last_entry out)
       = option_map to_version (last_entry l)
    /\ (chained l -> chained out).
Proof. apply (optimize_loop_shape l []). Qed.

Lemma optimize_shape_witness :
  exists out,
    optimize (__actions_list negative_delete_history) = Ok out
    /\ chained out.
Proof.
  destruct (optimize_shape (__actions_list negative_delete_history))
    as [out (Ho & _ & _ & _ & _ & Hc)].
  exists out. split; [exact Ho|]. apply Hc.
  vm_compute. repeat split.
Defined.

(** ** Range queries on a history reached by mutation calls *)

Lemma indexed_from_cons (k : Z) (a : Action) (l : list Action) :
  indexed_from k (a :: l) ->
  from_version a = k /\ to_version a = k + 1 /\ indexed_from (k + 1) l.
Proof.
  intros H. destruct (H O a eq_refl) as [Hf Ht].
  split; [simpl in Hf; lia|]. split; [simpl in Ht; lia|].
  intros i b Hb. destruct (H (S i) b Hb) as [Hf' Ht']. lia.
Qed.

Lemma log_indexed_from_0 (l : list Action) : log_indexed l -> indexed_from 0 l.
Proof. intros H i a Ha. destruct (H i a Ha). lia. Qed.

(** On an indexed list the window test selects one contiguous segment. *)
Lemma filter_window_indexed (f t : Z) (l : list Action) (k : Z) :
  indexed_from k l ->
  filter (in_window f t) l
  = firstn (Z.to_nat (t - Z.max f k)) (skipn (Z.to_nat (f - k)) l).
Proof.
  revert k. induction l as [|a l IH]; intros k Hk.
  - now rewrite skipn_nil, firstn_nil.
  - destruct (indexed_from_cons k a l Hk) as (Hf & _ & Hl).
    specialize (IH (k + 1) Hl). simpl filter. rewrite IH.
    unfold in_window. rewrite Hf.
    destruct (Z.leb_spec f k) as [Hfk|Hfk]; simpl.
    + replace (Z.to_nat (f - k)) with O by lia.
      replace (Z.to_nat (f - (k + 1))) with O by lia. simpl skipn.
      replace (Z.max f (k + 1)) with (k + 1) by lia.
      replace (Z.max f k) with k by lia.
      destruct (Z.ltb_spec k t) as [Hkt|Hkt].
      * replace (Z.to_nat (t - k)) with (S (Z.to_nat (t - (k + 1)))) by lia.
        reflexivity.
      * replace (Z.to_nat (t - k)) with O by lia.
        replace (Z.to_nat (t - (k + 1))) with O by lia. reflexivity.
    + replace (Z.to_nat (f - k)) with (S (Z.to_nat (f - (k + 1)))) by lia.
      replace (Z.max f (k + 1)) with f by lia.
      replace (Z.max f k) with f by lia. reflexivity.
Qed.

Lemma indexed_from_chain (l : list Action) (k : Z) :
  indexed_from k l ->
  chained l
  /\ (l <> [] ->
      option_map from_version (first_entry l) = Some k
      /\ option_map to_version (last_entry l) = Some (k + len l)).
Proof.
  revert k. induction l as [|a l IH]; intros k Hk.
  - split; [exact I | congruence].
  - destruct (indexed_from_cons k a l Hk) as (Hf & Ht & Hl).
    destruct (IH (k + 1) Hl) as [Hc He].
    destruct l as [|b l].
    + split; [exact I|]. intros _. simpl. rewrite Hf, Ht.
      split; reflexivity.
    + destruct (He ltac:(discriminate)) as [He1 He2].
      split.
      * split; [|exact Hc]. simpl in He1. injection He1 as He1. lia.
      * intros _. split; [simpl; now rewrite Hf|].
        rewrite last_entry_cons by discriminate. rewrite He2.
        f_equal. unfold len. simpl List.length. lia.
Qed.

Lemma indexed_from_segment (log : list Action) (n m : nat) :
  log_indexed log ->
  indexed_from (Z.of_nat n) (firstn m (skipn n log)).
Proof.
  intros Hl i a Ha. rewrite nth_error_firstn in Ha.
  destruct (Nat.ltb i m); [|discriminate].
  rewrite nth_error_skipn in Ha. destruct (Hl _ _ Ha). lia.
Qed.

Lemma filter_none {A : Type} (p : A -> bool) (l : list A) :
  (forall x, p x = false) -> filter p l = [].
Proof.
  intros Hp. induction l as [|x l IH]; simpl; [reflexivity|].
  now rewrite Hp.
Qed.

Lemma Forall_filter_sub {A : Type} (P : A -> Prop) (p : A -> bool) (l : list A) :
  Forall P l -> Forall P (filter p l).
Proof.
  rewrite !Forall_forall. intros H x Hx.
  apply filter_In in Hx. now apply H.
Qed.

(** A history reached by [run] from the fresh one keeps both invariants. *)
Lemma run_invariants (ms : list Mutation) (h : TextHistory) (n : nat) :
  run ms init = (h, n) -> replays h /\ well_versioned h.
Proof.
  intros Hrun. split.
  - assert (Hi : replays init) by reflexivity.
    pose proof (run_replays ms init Hi) as Hr. now rewrite Hrun in Hr.
  - assert (Hi : well_versioned init).
    { split; [reflexivity|]. intros [|i] a Hn; discriminate. }
    destruct (run_well_versioned ms init Hi) as [Hw _].
    now rewrite Hrun in Hw.
Qed.

(** The selected sublist of a well-versioned log, as a segment. *)
Lemma window_segment (h : TextHistory) (f t : Z) :
  well_versioned h -> 0 <= f -> f <= t -> t <= _version h ->
  filter (in_window f t) (__actions_list h)
  = firstn (Z.to_nat t - Z.to_nat f) (skipn (Z.to_nat f) (__actions_list h))
  /\ len (filter (in_window f t) (__actions_list h)) = t - f.
Proof.
  intros [Hv Hl] H0 H1 H2.
  rewrite (filter_window_indexed f t _ 0 (log_indexed_from_0 _ Hl)).
  replace (Z.to_nat (t - Z.max f 0)) with (Z.to_nat t - Z.to_nat f)%nat by lia.
  replace (f - 0) with f by lia.
  split; [reflexivity|].
  unfold len in *. rewrite length_firstn, length_skipn. lia.
Qed.

(** X14. On a history reached by mutation calls from a fresh one, a
    query over a non-empty valid range [from_version < to_version]
    returns a non-empty list that tiles the range: the first action
    starts at [from_version], the last one ends at [to_version], and
    every action starts at the version where the previous one ends. *)
Theorem get_actions_tiles_range
    (ms : list Mutation) (h : TextHistory) (n : nat) (f t : Z) :
  run ms init = (h, n) ->
  0 <= f -> f < t -> t <= version h ->
  exists out,
    get_actions (Some f) (Some t) h = (h, Ok out)
    /\ out <> []
    /\ chained out
    /\ option_map from_version (first_entry out) = Some f
    /\ option_map to_version (last_entry out) = Some t.
Proof.
  intros Hrun H0 H1 H2. unfold version in H2.
  destruct (run_invariants ms h n Hrun) as [_ Hw].
  rewrite get_actions_unfold.
  destruct (range_test_valid f t (_version h) H0 ltac:(lia) H2) as (-> & -> & ->).
  destruct (window_segment h f t Hw H0 ltac:(lia) H2) as [Hseg Hlen].
  set (B := filter (in_window f t) (__actions_list h)) in *.
  assert (Hidx : indexed_from f B).
  { rewrite Hseg. replace f with (Z.of_nat (Z.to_nat f)) at 1 by lia.
    apply indexed_from_segment, Hw. }
  assert (HB : B <> []).
  { intros E. rewrite E in Hlen. unfold len in Hlen. simpl in Hlen. lia. }
  destruct (indexed_from_chain B f Hidx) as [Hc He].
  destruct (He HB) as [He1 He2].
  destruct (optimize_loop_shape B []) as [out (Ho & _ & Hne & Hf & Ht & Hch)].
  simpl app in Hne, Hf, Ht, Hch.
  exists out. split; [unfold optimize; now rewrite Ho|].
  split; [intros E; apply HB, Hne, E|].
  split; [now apply Hch|].
  split; [now rewrite Hf, He1|].
  rewrite Ht, He2. f_equal. lia.
Qed.

Lemma get_actions_tiles_range_witness :
  exists out,
    get_actions (Some 1) (Some 3) negative_delete_history
    = (negative_delete_history, Ok out)
    /\ out <> []
    /\ chained out
    /\ option_map from_version (first_entry out) = Some 1
    /\ option_map to_version (last_entry out) = Some 3.
Proof.
  apply (get_actions_tiles_range negative_delete_calls negative_delete_history 3 1 3);
    vm_compute; (reflexivity || discriminate).
Defined.

Lemma apply_all_app_Ok (l1 l2 : list Action) (t r : str) :
  apply_all (l1 ++ l2) t = Ok r ->
  exists m, apply_all l1 t = Ok m /\ apply_all l2 m = Ok r.
Proof.
  rewrite apply_all_app. destruct (apply_all l1 t) as [m|e]; simpl.
  - intros H. now exists m.
  - discriminate.
Qed.

(** X15. On a history reached by mutation calls from a fresh one whose
    logged deletes all have a non-negative length, the actions returned
    for a valid range [from_version <= to_version], applied in order to
    the text the history had at [from_version], give the text it had at
    [to_version]; the text at the current version is the current text. *)
Theorem get_actions_replays_range
    (ms : list Mutation) (h : TextHistory) (n : nat) (f t : Z) :
  run ms init = (h, n) ->
  Forall delete_length_nonneg (__actions_list h) ->
  0 <= f -> f <= t -> t <= version h ->
  exists out tf tt,
    get_actions (Some f) (Some t) h = (h, Ok out)
    /\ text_at h f = Ok tf
    /\ text_at h t = Ok tt
    /\ apply_all out tf = Ok tt
    /\ text_at h (version h) = Ok (text h).
Proof.
  intros Hrun Hnn H0 H1 H2. unfold version in *.
  destruct (run_invariants ms h n Hrun) as [Hr Hw].
  rewrite get_actions_unfold.
  destruct (range_test_valid f t (_version h) H0 H1 H2) as (-> & -> & ->).
  destruct (window_segment h f t Hw H0 H1 H2) as [Hseg _].
  set (log := __actions_list h) in *.
  set (nf := Z.to_nat f) in *. set (nt := Z.to_nat t) in *.
  assert (Hcur : text_at h (_version h) = Ok (text h)).
  { unfold text_at. destruct Hw as [-> _]. unfold len.
    rewrite Nat2Z.id, firstn_all. exact Hr. }
  assert (Hsplit : firstn nt log
                   = firstn nf log ++ firstn (nt - nf) (skipn nf log)).
  { rewrite <- (firstn_skipn nf (firstn nt log)) at 1.
    rewrite firstn_firstn, skipn_firstn_comm.
    replace (Nat.min nf nt) with nf by (unfold nf, nt; lia). reflexivity. }
  unfold replays in Hr. fold log in Hr.
  rewrite <- (firstn_skipn nt log) in Hr.
  destruct (apply_all_app_Ok _ _ _ _ Hr) as [tt [Htt _]].
  pose proof Htt as Htt'. rewrite Hsplit in Htt'.
  destruct (apply_all_app_Ok _ _ _ _ Htt') as [tf [Htf HB]].
  rewrite <- Hseg in HB.
  destruct (optimize_loop_equiv (filter (in_window f t) log) []
              (Forall_nil _) (Forall_filter_sub _ _ _ Hnn)) as [out [Ho He]].
  exists out, tf, tt.
  split; [unfold optimize; now rewrite Ho|].
  split; [exact Htf|]. split; [exact Htt|].
  split; [|exact Hcur]. rewrite He. exact HB.
Qed.

Lemma get_actions_replays_range_witness :
  exists out tf tt,
    get_actions (Some 1) (Some 3) abc_history = (abc_history, Ok out)
    /\ text_at abc_history 1 = Ok tf
    /\ text_at abc_history 3 = Ok tt
    /\ apply_all out tf = Ok tt
    /\ text_at abc_history (version abc_history) = Ok (text abc_history).
Proof.
  apply (get_actions_replays_range
           [CallInsert (lit "a") (Some 0); CallInsert (lit "b") (Some 1);
            CallInsert (lit "c") (Some 2)] abc_history 3 1 3);
    try reflexivity; try (vm_compute; discriminate).
  repeat constructor.
Defined.

(** X16. On a history reached by mutation calls from a fresh one,
    [get_actions()] without bounds never raises and returns the
    compaction of the whole log; when the logged deletes all have a
    non-negative length, applying the returned actions in order to the
    empty string gives the current text. *)
Theorem get_actions_default_bounds
    (ms : list Mutation) (h : TextHistory) (n : nat) :
  run ms init = (h, n) ->
  exists out,
    get_actions None None h = (h, Ok out)
    /\ optimize (__actions_list h) = Ok out
    /\ (Forall delete_length_nonneg (__actions_list h) ->
        apply_all out [] = Ok (text h)).
Proof.
  intros Hrun.
  destruct (run_invariants ms h n Hrun) as [Hr Hw].
  assert (Hv : 0 <= _version h).
  { destruct Hw as [-> _]. apply len_nonneg. }
  destruct (window_segment h 0 (_version h) Hw (Z.le_refl 0) Hv (Z.le_refl _))
    as [Hseg _].
  assert (Hall : filter (in_window 0 (_version h)) (__actions_list h)
                 = __actions_list h).
  { rewrite Hseg. simpl skipn. rewrite Nat.sub_0_r.
    destruct Hw as [-> _]. unfold len. rewrite Nat2Z.id. apply firstn_all. }
  destruct (optimize_total (__actions_list h)) as [out Ho].
  exists out. split; [|split; [exact Ho|]].
  - change (get_actions None None h)
      with (get_actions (Some 0) (Some (_version h)) h).
    rewrite get_actions_unfold.
    destruct (range_test_valid 0 (_version h) (_version h)
                (Z.le_refl 0) Hv (Z.le_refl _)) as (-> & -> & ->).
    now rewrite Hall, Ho.
  - intros Hnn.
    destruct (optimize_loop_equiv (__actions_list h) [] (Forall_nil _) Hnn)
      as [out' [Ho' He]].
    unfold optimize in Ho. rewrite Ho in Ho'. injection Ho' as <-.
    rewrite He. exact Hr.
Qed.

Lemma get_actions_default_bounds_witness :
  exists out,
    get_actions None None negative_delete_history
    = (negative_delete_history, Ok out)
    /\ optimize (__actions_list negative_delete_history) = Ok out
    /\ (Forall delete_length_nonneg (__actions_list negative_delete_history) ->
        apply_all out [] = Ok (text negative_delete_history)).
Proof.
  apply (get_actions_default_bounds negative_delete_calls
           negative_delete_history 3).
  reflexivity.
Defined.

(** X17. An empty range is valid: for [0 <= v <= version],
    [get_actions(v, v)] returns the empty list on any history, whatever
    its log holds. *)
Theorem get_actions_empty_range (h : TextHistory) (v : Z) :
  0 <= v -> v <= version h ->
  get_actions (Some v) (Some v) h = (h, Ok []).
Proof.
  intros H0 H1. rewrite get_actions_unfold.
  destruct (range_test_valid v v (_version h) H0 (Z.le_refl v) H1)
    as (-> & -> & ->).
  rewrite filter_none; [reflexivity|].
  intros a. unfold in_window.
  destruct (Z.leb_spec v (from_version a)), (Z.ltb_spec (from_version a) v);
    simpl; trivial; lia.
Qed.

Lemma get_actions_empty_range_witness :
  get_actions (Some 2) (Some 2) abc_history = (abc_history, Ok []).
Proof.
  apply (get_actions_empty_range abc_history 2); vm_compute; discriminate.
Defined.

(** ** Typing at the end of the text *)

Lemma run_append_calls (cs : list str) (h : TextHistory) :
  fst (run (append_calls cs) h)
  = {| _text := _text h ++ List.concat cs;
       _version := _version h + len cs;
       __actions_list :=
         __actions_list h ++ typed_actions (len (_text h)) (_version h) cs |}.
Proof.
  revert h. induction cs as [|c cs IH]; intros h.
  - destruct h as [t v l]. simpl.
    now rewrite !app_nil_r, Z.add_0_r.
  - simpl run. rewrite insert_default_commits.
    match goal with
    | |- context [run (append_calls cs) ?h1] =>
        specialize (IH h1); destruct (run (append_calls cs) h1) as [h2 k]
    end.
    simpl in IH. simpl fst. rewrite IH. simpl.
    rewrite <- !app_assoc, len_app. simpl app.
    f_equal. unfold len. simpl List.length. lia.
Qed.

Lemma typed_actions_length (p v : Z) (cs : list str) :
  List.length (typed_actions p v cs) = List.length cs.
Proof.
  revert p v. induction cs as [|c cs IH]; intros p v; simpl; [reflexivity|].
  now rewrite IH.
Qed.

Lemma typed_actions_collapse (cs : list str) :
  forall (out : list Action) (p0 : Z) (c0 : str) (f0 v : Z),
    optimize_loop (typed_actions (p0 + len c0) v cs)
      (out ++ [InsertAction p0 c0 f0 v])
    = Ok (out ++ [InsertAction p0 (c0 ++ List.concat cs) f0 (v + len cs)]).
Proof.
  induction cs as [|c cs IH]; intros out p0 c0 f0 v.
  - simpl. now rewrite app_nil_r, Z.add_0_r.
  - simpl typed_actions. simpl optimize_loop.
    rewrite optimize_step_snoc. simpl merge_pair. rewrite Z.eqb_refl, rbind_Ok_l.
    replace (p0 + len c0 + len c) with (p0 + len (c0 ++ c))
      by (rewrite len_app; lia).
    rewrite IH. simpl List.concat. rewrite <- app_assoc.
    replace (v + len (c :: cs)) with (v + 1 + len cs)
      by (unfold len; simpl List.length; lia).
    reflexivity.
Qed.

(** X18. Typing compacts to one insert: after a non-empty run of
    [insert(c)] calls without a position on a history reached by
    mutation calls from a fresh one, the text is the old text followed
    by the pieces, the version has advanced by the number of pieces, and
    the query from the old version to the new one returns exactly one
    insert, at the old end of the text, holding all the pieces in
    order. *)
Theorem typing_compacts_to_one_insert
    (ms : list Mutation) (h : TextHistory) (n : nat) (cs : list str) :
  run ms init = (h, n) ->
  cs <> [] ->
  text (fst (run (append_calls cs) h)) = text h ++ List.concat cs
  /\ version (fst (run (append_calls cs) h)) = version h + len cs
  /\ get_actions (Some (version h)) (Some (version h + len cs))
       (fst (run (append_calls cs) h))
     = (fst (run (append_calls cs) h),
        Ok [InsertAction (len (text h)) (List.concat cs)
              (version h) (version h + len cs)]).
Proof.
  intros Hrun Hcs. unfold text, version.
  destruct (run_invariants ms h n Hrun) as [_ Hw].
  destruct (run_well_versioned (append_calls cs) h Hw) as [Hw' _].
  pose proof (run_append_calls cs h) as Hh'.
  set (h' := fst (run (append_calls cs) h)) in *.
  pose proof Hw as [Hv _].
  pose proof (len_nonneg (__actions_list h)) as Hlog.
  pose proof (len_nonneg cs) as Hn.
  rewrite Hh' at 1 2. simpl _text. simpl _version.
  split; [reflexivity|]. split; [reflexivity|].
  assert (Hver : _version h' = _version h + len cs) by now rewrite Hh'.
  rewrite get_actions_unfold.
  destruct (range_test_valid (_version h) (_version h + len cs) (_version h')
              ltac:(lia) ltac:(lia) ltac:(lia)) as (-> & -> & ->).
  destruct (window_segment h' (_version h) (_version h + len cs) Hw'
              ltac:(lia) ltac:(lia) ltac:(lia)) as [-> _].
  f_equal.
  assert (Hlog' : __actions_list h'
                  = __actions_list h
                    ++ typed_actions (len (_text h)) (_version h) cs)
    by now rewrite Hh'.
  rewrite Hlog'.
  rewrite skipn_exact_app by (rewrite Hv; unfold len; lia).
  rewrite firstn_all2
    by (rewrite typed_actions_length; rewrite Hv; unfold len; lia).
  destruct cs as [|c cs]; [congruence|].
  simpl typed_actions. unfold optimize.
  match goal with
  | |- optimize_loop (?a :: ?T) [] = _ =>
      change (optimize_loop (a :: T) []) with (optimize_loop T ([] ++ [a]))
  end.
  rewrite (typed_actions_collapse cs [] (len (_text h)) c).
  replace (_version h + 1 + len cs) with (_version h + len (c :: cs))
    by (unfold len; simpl List.length; lia).
  reflexivity.
Qed.

Lemma typing_compacts_to_one_insert_witness :
  text (fst (run (append_calls [lit "d"; lit "ef"]) abc_history))
  = text abc_history ++ List.concat [lit "d"; lit "ef"]
  /\ version (fst (run (append_calls [lit "d"; lit "ef"]) abc_history))
     = version abc_history + len [lit "d"; lit "ef"]
  /\ get_actions (Some (version abc_history))
       (Some (version abc_history + len [lit "d"; lit "ef"]))
       (fst (run (append_calls [lit "d"; lit "ef"]) abc_history))
     = (fst (run (append_calls [lit "d"; lit "ef"]) abc_history),
        Ok [InsertAction (len (text abc_history)) (List.concat [lit "d"; lit "ef"])
              (version abc_history)
              (version abc_history + len [lit "d"; lit "ef"])]).
Proof.
  apply (typing_compacts_to_one_insert
           [CallInsert (lit "a") (Some 0); CallInsert (lit "b") (Some 1);
            CallInsert (lit "c") (Some 2)] abc_history 3 [lit "d"; lit "ef"]).
  - reflexivity.
  - discriminate.
Defined.

(** X19. An action is applied at most once: after [action] has applied
    an action whose [to_version] differs from its [from_version], a
    second call with the same action raises the version-mismatch error
    and changes nothing. *)
Theorem action_not_reapplicable (act : Action) (h : TextHistory) (t' : str) :
  from_version act = version h ->
  apply act (text h) = Ok t' ->
  to_version act <> from_version act ->
  action act (fst (action act h))
  = (fst (action act h), Raise VersionMismatch).
Proof.
  intros Hv Ha Hne.
  rewrite (action_commits act h t' Hv Ha). simpl fst.
  apply action_stale. simpl. congruence.
Qed.

Lemma action_not_reapplicable_witness :
  action (DeleteAction 0 1 3 4) (fst (action (DeleteAction 0 1 3 4) abc_history))
  = (fst (action (DeleteAction 0 1 3 4) abc_history), Raise VersionMismatch).
Proof.
  apply (action_not_reapplicable (DeleteAction 0 1 3 4) abc_history (lit "bc"));
    try reflexivity.
  discriminate.
Defined.
